(** * logbase: log-entry storage and retrieval, shallow embedding

    The action registry ([src/api/action.rs]), the [Log] model with its
    field projection, guarded upsert and the two listings
    ([src/db/model_log.rs]), and the HTTP handlers that drive them
    ([src/api/log.rs]).  The wide-column row store is modelled as a map
    from partition key ([uid]) to a map from clustering key ([id]) to the
    non-key columns of the row; statements bind their parameters by
    position, as the CQL driver does. *)

From Stdlib Require Import ZArith Lia.
From stdpp Require Import base list gmap strings sorting.

Open Scope Z_scope.

(* ------------------------------------------------------------------ *)
(** ** Action registry ([src/api/action.rs]) *)

Definition ACTIONS : list string := [
  "sys.create.user"; "sys.update.user"; "sys.update.group"; "sys.update.creation";
  "reserved"; "reserved"; "reserved"; "reserved";
  "user.login"; "user.authz"; "user.update"; "user.update.cn"; "user.logout";
  "user.collect"; "user.follow"; "user.subscribe"; "user.sponsor";
  "reserved"; "reserved"; "reserved"; "reserved"; "reserved"; "reserved"; "reserved";
  "group.create"; "group.update"; "group.update.cn"; "group.transfer"; "group.delete";
  "group.create.user"; "group.update.user"; "group.add.member";
  "group.update.member"; "group.remove.member";
  "reserved"; "reserved"; "reserved"; "reserved"; "reserved"; "reserved";
  "creation.create"; "creation.create.converting"; "creation.create.scraping";
  "creation.update"; "creation.update.content"; "creation.release";
  "creation.delete"; "creation.assist"; "creation.transfer";
  "reserved"; "reserved"; "reserved"; "reserved"; "reserved"; "reserved"; "reserved";
  "publication.create"; "publication.update"; "publication.update.content";
  "publication.publish"; "publication.delete"; "publication.assist";
  "reserved"; "reserved"; "reserved"; "reserved"; "reserved";
  "reserved"; "reserved"; "reserved"; "reserved"; "reserved"]%string.

(** [x as i8] for an integer value: two's-complement wrap-around to 8 bits. *)
Definition as_i8 (z : Z) : Z := (z + 128) mod 256 - 128.

(** [x as u32]: wrap-around to 32 bits. *)
Definition as_u32 (z : Z) : Z := z mod 2 ^ 32.

(** [pub fn from_action(a: i8) -> String] *)
Definition from_action (a : Z) : string :=
  if (a <? 0) || (Z.of_nat (length ACTIONS) <=? a) then "reserved"%string
  else nth (Z.to_nat a) ACTIONS "reserved"%string.

(** [Iterator::position]: index of the first element equal to [a]. *)
Fixpoint position (a : string) (l : list string) : option nat :=
  match l with
  | [] => None
  | x :: l' => if String.eqb x a then Some 0%nat else S <$> position a l'
  end.

(** [pub fn to_action(a: &str) -> Option<i8>] *)
Definition to_action (a : string) : option Z :=
  if String.eqb a "reserved" then None
  else (fun x => as_i8 (Z.of_nat x)) <$> position a ACTIONS.

(* ------------------------------------------------------------------ *)
(** ** The [Log] model ([src/db/model_log.rs]) *)

(** An [xid::Id] is 12 bytes, compared by the row store as a byte string;
    it is represented by its big-endian value in [0, 2^96).
    [xid::Id::default()] is all zero bytes. *)
Definition xid_default : Z := 0.

Record Log := mkLog {
  uid : Z;
  id : Z;
  action : Z;
  status : Z;
  gid : Z;
  ip : string;
  payload : list Z;
  tokens : Z;
  error : string;
  _fields : list string
}.

Definition log_default : Log :=
  mkLog xid_default xid_default 0 0 xid_default "" [] 0 "" [].

(** [Log::with_pk] *)
Definition with_pk (u i : Z) : Log :=
  mkLog u i 0 0 xid_default "" [] 0 "" [].

(** Errors surfaced by the handlers.  [HTTPError]s built by the code carry
    the offending name; [EQuery] is an error of the row store (a statement
    rejected by the server: syntax, binding or limit). *)
Inductive Error :=
  | EInvalidField (f : string)
  | EFrozen
  | ENotFound
  | EInvalidAction (a : string)
  | EValidation
  | EQuery.

Inductive result (A : Type) :=
  | Ok (a : A)
  | Err (e : Error).
Arguments Ok {A} a.
Arguments Err {A} e.

Definition is_ok {A} (r : result A) : bool :=
  match r with Ok _ => true | Err _ => false end.

(** [Self::fields()], generated by the [CqlOrm] derive: the struct's
    fields in declaration order, without the [_]-prefixed one. *)
Definition fields : list string :=
  ["uid"; "id"; "action"; "status"; "gid"; "ip"; "payload"; "tokens"; "error"]%string.

(** [Vec::contains] on strings *)
Definition contains (l : list string) (f : string) : bool :=
  existsb (String.eqb f) l.

(** [if !v.contains(&field) { v.push(field) }] *)
Definition push_missing (f : string) (v : list string) : list string :=
  if contains v f then v else v ++ [f].

(** The validation loop: the first requested name outside [fields]. *)
Fixpoint first_invalid (all sel : list string) : option string :=
  match sel with
  | [] => None
  | f :: sel' => if contains all f then first_invalid all sel' else Some f
  end.

(** [Log::select_fields] *)
Definition select_fields (select : list string) (with_pk : bool) : result (list string) :=
  match select with
  | [] => Ok fields
  | _ =>
      match first_invalid fields select with
      | Some f => Err (EInvalidField f)
      | None =>
          let s := push_missing "status" (push_missing "action" select) in
          Ok (if with_pk then push_missing "id" (push_missing "uid" s) else s)
      end
  end%string.

(* ------------------------------------------------------------------ *)
(** ** Output ([LogOutput::from] in [src/api/log.rs]) *)

(** [PackObject::with] only wraps a value for serialisation; it is the
    identity here. *)
Record LogOutput := mkLogOutput {
  o_uid : Z;
  o_id : Z;
  o_action : string;
  o_status : Z;
  o_gid : option Z;
  o_ip : option string;
  o_payload : option (list Z);
  o_tokens : option Z;
  o_error : option string
}.

(** One arm of the [match v.as_str()] in the loop over [val._fields]. *)
Definition output_field (val : Log) (rt : LogOutput) (v : string) : LogOutput :=
  let '(mkLogOutput u i a st g p pl t e) := rt in
  if String.eqb v "gid" then mkLogOutput u i a st (Some (gid val)) p pl t e
  else if String.eqb v "ip" then mkLogOutput u i a st g (Some (ip val)) pl t e
  else if String.eqb v "payload" then mkLogOutput u i a st g p (Some (payload val)) t e
  else if String.eqb v "tokens" then mkLogOutput u i a st g p pl (Some (as_u32 (tokens val))) e
  else if String.eqb v "error" then
    mkLogOutput u i a st g p pl t
      (if String.eqb (error val) "" then None else Some (error val))
  else rt.

(** [LogOutput::from] *)
Definition LogOutput_from (val : Log) : LogOutput :=
  let rt := mkLogOutput (uid val) (id val) (from_action (action val)) (status val)
              None None None None None in
  fold_left (output_field val) (_fields val) rt.

(* ------------------------------------------------------------------ *)
(** ** The row store *)

(** Values bound to statements and stored in columns ([CqlValue]):
    [xid::Id] is sent as a blob of its 12 bytes, kept here as the number
    those bytes encode ([VId]); a [Vec<u8>] is sent as a blob too ([VBlob]),
    and both go into blob columns; [i8] is sent as a tinyint, [i32] as an
    int. *)
Inductive CqlValue :=
  | VId (z : Z)
  | VTinyInt (z : Z)
  | VInt (z : Z)
  | VText (s : string)
  | VBlob (b : list Z).

#[global] Instance CqlValue_eq_dec : EqDecision CqlValue.
Proof. solve_decision. Defined.

Inductive CqlType := TTinyInt | TInt | TText | TBlob.

(** Column types of table [log], following the CQL values the code sends
    for [Log]'s fields: [xid::Id] and [Vec<u8>] both go as
    [CqlValue::Blob], [i8] as a tinyint, [i32] as an int, [String] as
    text. *)
Definition col_type (c : string) : option CqlType :=
  match c with
  | "uid" | "id" | "gid" => Some TBlob
  | "action" | "status" => Some TTinyInt
  | "tokens" => Some TInt
  | "ip" | "error" => Some TText
  | "payload" => Some TBlob
  | _ => None
  end%string.

Definition has_type (v : CqlValue) (t : CqlType) : bool :=
  match v, t with
  | VId _, TBlob | VBlob _, TBlob | VTinyInt _, TTinyInt | VInt _, TInt
  | VText _, TText => true
  | _, _ => false
  end.

Definition col_accepts (c : string) (v : CqlValue) : bool :=
  match col_type c with Some t => has_type v t | None => false end.

(** Ordering of two values of the same numeric type; [None] otherwise. *)
Definition val_cmp (a b : CqlValue) : option comparison :=
  match a, b with
  | VId x, VId y | VTinyInt x, VTinyInt y | VInt x, VInt y => Some (Z.compare x y)
  | _, _ => None
  end.

(** The non-key columns of a row; an unset column is absent. *)
Abbreviation Row := (gmap string CqlValue).

(** Table [log]: partition key [uid], clustering key [id]. *)
Abbreviation Store := (gmap Z (gmap Z Row)).

(** A row as the store returns it: [(uid, id)] and its columns. *)
Abbreviation FullRow := ((Z * Z) * Row)%type.

Definition col_of (r : FullRow) (c : string) : option CqlValue :=
  let '((u, i), cs) := r in
  if String.eqb c "uid" then Some (VId u)
  else if String.eqb c "id" then Some (VId i)
  else cs !! c.

Definition id_desc (a b : Z * Row) : Prop := (b.1 <= a.1)%Z.

Global Instance id_desc_dec : RelDecision id_desc.
Proof. intros a b. unfold id_desc. apply _. Defined.

(** Modelled from the spec: the clustering order of table [log], whose
    schema is not part of the sources.  Rows of a partition are scanned
    in descending identifier order ("Rows are returned in descending
    identifier order (i.e., most-recently-created first)"). *)
Definition partition (db : Store) (u : Z) : list (Z * Row) :=
  merge_sort id_desc (map_to_list (default ∅ (db !! u))).

(** A restriction of a [SELECT ... WHERE]: each [?] is a positional
    parameter; [CIn c n] is [c IN (?, ..., ?)] with [n] markers. *)
Inductive Cond :=
  | CEq (c : string)
  | CLt (c : string)
  | CGt (c : string)
  | CIn (c : string) (n : nat).

Definition cond_col (c : Cond) : string :=
  match c with CEq x | CLt x | CGt x | CIn x _ => x end.

Definition cond_arity (c : Cond) : nat :=
  match c with CIn _ n => n | _ => 1%nat end.

Inductive Limit := LimitLit (n : Z) | LimitParam.

(** [SELECT cols FROM log WHERE conds LIMIT lim] *)
Record Select := mkSelect {
  sel_cols : list string;
  sel_where : list Cond;
  sel_limit : Limit
}.

(** Positional binding of the parameter list to the markers, left to right. *)
Fixpoint bind_conds (cs : list Cond) (ps : list CqlValue)
    : option (list (Cond * list CqlValue) * list CqlValue) :=
  match cs with
  | [] => Some ([], ps)
  | c :: cs' =>
      if Nat.ltb (length ps) (cond_arity c) then None
      else match bind_conds cs' (drop (cond_arity c) ps) with
           | Some (b, rest) => Some ((c, take (cond_arity c) ps) :: b, rest)
           | None => None
           end
  end.

Definition bind_limit (l : Limit) (ps : list CqlValue) : option Z :=
  match l, ps with
  | LimitLit n, [] => Some n
  | LimitParam, [VInt n] => Some n
  | _, _ => None
  end.

(** Binding is checked against the column types: a value of the wrong
    type for its marker makes the statement fail. *)
Definition bind_select (q : Select) (ps : list CqlValue)
    : option (list (Cond * list CqlValue) * Z) :=
  match bind_conds (sel_where q) ps with
  | None => None
  | Some (b, rest) =>
      match bind_limit (sel_limit q) rest with
      | None => None
      | Some n =>
          if forallb (fun '(c, vs) => forallb (col_accepts (cond_col c)) vs) b
             && forallb (fun c => bool_decide (is_Some (col_type c))) (sel_cols q)
          then Some (b, n) else None
      end
  end.

Definition eval_cond (r : FullRow) (cb : Cond * list CqlValue) : bool :=
  match cb with
  | (CEq c, [v]) =>
      match col_of r c with Some w => bool_decide (val_cmp w v = Some Eq) | None => false end
  | (CLt c, [v]) =>
      match col_of r c with Some w => bool_decide (val_cmp w v = Some Lt) | None => false end
  | (CGt c, [v]) =>
      match col_of r c with Some w => bool_decide (val_cmp w v = Some Gt) | None => false end
  | (CIn c _, vs) =>
      match col_of r c with
      | Some w => existsb (fun v => bool_decide (val_cmp w v = Some Eq)) vs
      | None => false
      end
  | _ => false
  end.

(** A single-partition query: the first restriction fixes [uid]; the
    partition is scanned in clustering order, filtered by the remaining
    restrictions and cut at the limit, which must be positive. *)
Definition exec_select (db : Store) (q : Select) (ps : list CqlValue)
    : result (list FullRow) :=
  match bind_select q ps with
  | Some ((CEq c, [VId u]) :: rest, n) =>
      if String.eqb c "uid" then
        if n <=? 0 then Err EQuery
        else Ok (take (Z.to_nat n)
                   (List.filter (fun r => forallb (eval_cond r) rest)
                      (map (fun '(i, cs) => ((u, i), cs)) (partition db u))))
      else Err EQuery
  | _ => Err EQuery
  end.

Definition set_cols (kvs : list (string * CqlValue)) (row : Row) : Row :=
  fold_left (fun r '(k, v) => <[k := v]> r) kvs row.

Definition store_update (db : Store) (u i : Z) (kvs : list (string * CqlValue)) : Store :=
  let part := default ∅ (db !! u) in
  <[u := <[i := set_cols kvs (default ∅ (part !! i))]> part]> db.

(** [UPDATE log SET k1=?,...,kn=? WHERE uid=? AND id=?]: an upsert of the
    set columns; an empty [SET] list is a syntax error. *)
Definition exec_update (db : Store) (set : list string) (ps : list CqlValue) : result Store :=
  match set with
  | [] => Err EQuery
  | _ =>
      let n := length set in
      let kvs := zip set (take n ps) in
      match drop n ps with
      | [VId u; VId i] =>
          if forallb (fun '(k, v) => col_accepts k v) kvs
          then Ok (store_update db u i kvs) else Err EQuery
      | _ => Err EQuery
      end
  end.

(* ------------------------------------------------------------------ *)
(** ** Effects: the store and the trace of statements sent to it *)

Inductive Op := OpRead | OpWrite.

Record World := mkWorld { w_db : Store; w_trace : list Op }.

(** A computation that talks to the row store. *)
Definition ST (A : Type) : Type := World -> A * World.

Definition st_ret {A} (a : A) : ST A := fun w => (a, w).

Definition st_bind {A B} (m : ST A) (k : A -> ST B) : ST B :=
  fun w => let '(a, w') := m w in k a w'.

Notation "x <- m ;; k" := (st_bind m (fun x => k))
  (at level 100, m at next level, right associativity).

(** [db.execute_iter(query, params)] (also [db.execute] for a select). *)
Definition execute_iter (q : Select) (ps : list CqlValue) : ST (result (list FullRow)) :=
  fun w => (exec_select (w_db w) q ps, mkWorld (w_db w) (w_trace w ++ [OpRead])).

(** [db.execute(update, params)] *)
Definition execute_update (set : list string) (ps : list CqlValue) : ST (result unit) :=
  fun w =>
    match exec_update (w_db w) set ps with
    | Ok db' => (Ok tt, mkWorld db' (w_trace w ++ [OpWrite]))
    | Err e => (Err e, mkWorld (w_db w) (w_trace w ++ [OpWrite]))
    end.

(* ------------------------------------------------------------------ *)
(** ** Reading a row into a [Log] ([ColumnsMap::fill] then [Log::fill]) *)

Definition as_id (v : option CqlValue) : Z :=
  match v with Some (VId z) => z | _ => xid_default end.
Definition as_tiny (v : option CqlValue) : Z :=
  match v with Some (VTinyInt z) => z | _ => 0 end.
Definition as_int (v : option CqlValue) : Z :=
  match v with Some (VInt z) => z | _ => 0 end.
Definition as_text (v : option CqlValue) : string :=
  match v with Some (VText s) => s | _ => "" end.
Definition as_blob (v : option CqlValue) : list Z :=
  match v with Some (VBlob b) => b | _ => [] end.

(** Sets the struct field named [f] from a column value; an unset (null)
    column reads as the field's default value. *)
Definition fill_field (l : Log) (f : string) (v : option CqlValue) : Log :=
  let '(mkLog u i a st g p pl t e fs) := l in
  if String.eqb f "uid" then mkLog (as_id v) i a st g p pl t e fs
  else if String.eqb f "id" then mkLog u (as_id v) a st g p pl t e fs
  else if String.eqb f "action" then mkLog u i (as_tiny v) st g p pl t e fs
  else if String.eqb f "status" then mkLog u i a (as_tiny v) g p pl t e fs
  else if String.eqb f "gid" then mkLog u i a st (as_id v) p pl t e fs
  else if String.eqb f "ip" then mkLog u i a st g (as_text v) pl t e fs
  else if String.eqb f "payload" then mkLog u i a st g p (as_blob v) t e fs
  else if String.eqb f "tokens" then mkLog u i a st g p pl (as_int v) e fs
  else if String.eqb f "error" then mkLog u i a st g p pl t (as_text v) fs
  else l.

(** Only the selected columns are filled; the other fields keep their
    value. *)
Definition fill_log (l : Log) (fs : list string) (r : FullRow) : Log :=
  fold_left (fun l f => fill_field l f (col_of r f)) fs l.

Definition with_fields (l : Log) (fs : list string) : Log :=
  let '(mkLog u i a st g p pl t e _) := l in mkLog u i a st g p pl t e fs.

Definition with_action (l : Log) (a : Z) : Log :=
  let '(mkLog u i _ st g p pl t e fs) := l in mkLog u i a st g p pl t e fs.

(* ------------------------------------------------------------------ *)
(** ** [Log] methods *)

(** [Log::get_one(&mut self, db, select_fields)]: returns the updated
    [self] next to the result, since [self._fields] is set before the
    read. *)
Definition get_one (self : Log) (select : list string) : ST (Log * result unit) :=
  match select_fields select false with
  | Err e => st_ret (self, Err e)
  | Ok fs =>
      let self := with_fields self fs in
      res <- execute_iter (mkSelect fs [CEq "uid"; CEq "id"] (LimitLit 1))
                          [VId (uid self); VId (id self)] ;;
      match res with
      | Err e => st_ret (self, Err e)
      | Ok [] => st_ret (self, Err ENotFound)
      | Ok (r :: _) => st_ret (fill_log self fs r, Ok tt)
      end
  end%string.

(** [ColumnsMap], iterated in insertion order. *)
Abbreviation ColumnsMap := (list (string * CqlValue)).

(** [ColumnsMap::set_as]: replaces the value of an existing key. *)
Fixpoint set_as (k : string) (v : CqlValue) (m : ColumnsMap) : ColumnsMap :=
  match m with
  | [] => [(k, v)]
  | (k', v') :: m' => if String.eqb k k' then (k, v) :: m' else (k', v') :: set_as k v m'
  end.

Definition valid_fields : list string :=
  ["status"; "gid"; "action"; "ip"; "payload"; "tokens"; "error"]%string.

(** The loop of [upsert_fields] building [set_fields] and [params]. *)
Fixpoint collect_set (cols : ColumnsMap) : result (list string * list CqlValue) :=
  match cols with
  | [] => Ok ([], [])
  | (k, v) :: cols' =>
      if contains valid_fields k then
        match collect_set cols' with
        | Ok (s, p) => Ok (k :: s, v :: p)
        | Err e => Err e
        end
      else Err (EInvalidField k)
  end.

(** [Log::upsert_fields(&mut self, db, cols)] *)
Definition upsert_fields (self : Log) (cols : ColumnsMap) : ST (Log * result bool) :=
  st_bind (get_one self ["status"%string]) (fun '(self, res) =>
  if is_ok res && negb (status self =? 0) then st_ret (self, Err EFrozen)
  else
    match collect_set cols with
    | Err e => st_ret (self, Err e)
    | Ok (set, params) =>
        r <- execute_update set (params ++ [VId (uid self); VId (id self)]) ;;
        match r with
        | Err e => st_ret (self, Err e)
        | Ok _ => st_ret (self, Ok true)
        end
    end).

(** Modelled from the spec: [crate::db::MAX_ID], "the maximum possible
    identifier value" (all twelve bytes 0xff). *)
Definition MAX_ID : Z := 2 ^ 96 - 1.

(** One row of a listing: [Log::default()] filled, then [_fields] set. *)
Definition row_to_log (fs : list string) (r : FullRow) : Log :=
  with_fields (fill_log log_default fs r) fs.

(** [Log::list(db, uid, select_fields, page_size, page_token, action)] *)
Definition Log_list (u : Z) (select : list string) (page_size : Z)
    (page_token : option Z) (act : option Z) : ST (result (list Log)) :=
  match select_fields select true with
  | Err e => st_ret (Err e)
  | Ok fs =>
      let token := match page_token with None => MAX_ID | Some t => t end in
      rows <- match act with
              | None =>
                  execute_iter (mkSelect fs [CEq "uid"; CLt "id"] LimitParam)
                    [VId u; VId token; VInt page_size]
              | Some a =>
                  execute_iter (mkSelect fs [CEq "uid"; CEq "action"; CLt "id"] LimitParam)
                    [VId u; VId token; VTinyInt a; VInt page_size]
              end ;;
      match rows with
      | Err e => st_ret (Err e)
      | Ok rows => st_ret (Ok (map (row_to_log fs) rows))
      end
  end%string.

(** The lower bound of [list_recently]: [unix_ms() / 1000 - 3600 * 24 * 3]
    on [u64] (wrapping), cast [as u32], copied big-endian into bytes 0..=3
    of [xid::Id::default()]; the other eight bytes stay zero. *)
Definition recent_lower_bound (now_ms : Z) : Z :=
  Z.shiftl (as_u32 ((now_ms / 1000 - 3600 * 24 * 3) mod 2 ^ 64)) 64.

(** [Log::list_recently(db, uid, select_fields, actions)], at time
    [now_ms] (milliseconds since the epoch). *)
Definition Log_list_recently (now_ms : Z) (u : Z) (select : list string)
    (actions : list Z) : ST (result (list Log)) :=
  match select_fields select true with
  | Err e => st_ret (Err e)
  | Ok fs =>
      let lb := recent_lower_bound now_ms in
      rows <- match actions with
              | [] =>
                  execute_iter (mkSelect fs [CEq "uid"; CGt "id"] LimitParam)
                    [VId u; VId lb; VInt 1000]
              | _ =>
                  execute_iter
                    (mkSelect fs [CEq "uid"; CGt "id"; CIn "action" (length actions)] LimitParam)
                    ([VId u; VId lb] ++ map VTinyInt actions ++ [VInt 1000])
              end ;;
      match rows with
      | Err e => st_ret (Err e)
      | Ok rows => st_ret (Ok (map (row_to_log fs) rows))
      end
  end%string.

(* ------------------------------------------------------------------ *)
(** ** HTTP handlers ([src/api/log.rs]) *)

(** [CreateLogInput]; [validate] checks [-1 <= status <= 1] and
    [tokens >= 0]. *)
Record CreateLogInput := mkCreateLogInput {
  ci_uid : Z;
  ci_gid : Z;
  ci_action : string;
  ci_status : Z;
  ci_ip : string;
  ci_payload : list Z;
  ci_tokens : Z
}.

Definition validate_create (input : CreateLogInput) : bool :=
  (-1 <=? ci_status input) && (ci_status input <=? 1) && (0 <=? ci_tokens input).

(** [create]; [new_id] is the value of [xid::new()]. *)
Definition api_create (new_id : Z) (input : CreateLogInput) : ST (result LogOutput) :=
  if negb (validate_create input) then st_ret (Err EValidation)
  else
    match to_action (ci_action input) with
    | None => st_ret (Err (EInvalidAction (ci_action input)))
    | Some i =>
        let doc := with_action (with_pk (ci_uid input) new_id) i in
        let cols := set_as "tokens" (VInt (ci_tokens input))
                     (set_as "payload" (VBlob (ci_payload input))
                       (set_as "ip" (VText (ci_ip input))
                         (set_as "gid" (VId (ci_gid input))
                           (set_as "action" (VTinyInt i) [])))) in
        st_bind (upsert_fields doc cols) (fun '(doc, r) =>
        match r with
        | Err e => st_ret (Err e)
        | Ok _ => st_ret (Ok (LogOutput_from doc))
        end)
    end%string.

(** [ListRecentlyInput]; [validate] checks [1 <= actions.len() <= 10]. *)
Record ListRecentlyInput := mkListRecentlyInput {
  li_uid : Z;
  li_actions : list string;
  li_fields : option (list string)
}.

(** The loop resolving each action name, failing at the first unknown one. *)
Fixpoint resolve_actions (names : list string) : result (list Z) :=
  match names with
  | [] => Ok []
  | a :: names' =>
      match to_action a with
      | None => Err (EInvalidAction a)
      | Some i =>
          match resolve_actions names' with
          | Ok is => Ok (i :: is)
          | Err e => Err e
          end
      end
  end.

(** [list_recently] *)
Definition api_list_recently (now_ms : Z) (input : ListRecentlyInput)
    : ST (result (list LogOutput)) :=
  if negb (bool_decide (1 <= length (li_actions input) <= 10)%nat) then st_ret (Err EValidation)
  else
    match resolve_actions (li_actions input) with
    | Err e => st_ret (Err e)
    | Ok acts =>
        res <- Log_list_recently now_ms (li_uid input) (default [] (li_fields input)) acts ;;
        match res with
        | Err e => st_ret (Err e)
        | Ok logs => st_ret (Ok (map LogOutput_from logs))
        end
    end.

(** [UpdateLogInput]; [validate] checks [tokens >= 0] when present. *)
Record UpdateLogInput := mkUpdateLogInput {
  ui_uid : Z;
  ui_id : Z;
  ui_status : Z;
  ui_payload : option (list Z);
  ui_tokens : option Z;
  ui_error : option string
}.

Definition validate_update (input : UpdateLogInput) : bool :=
  match ui_tokens input with Some t => 0 <=? t | None => true end.

(** The column map built by [update]. *)
Definition update_cols (input : UpdateLogInput) : ColumnsMap :=
  let cols := set_as "status" (VTinyInt (ui_status input)) [] in
  let cols := match ui_payload input with Some p => set_as "payload" (VBlob p) cols | None => cols end in
  let cols := match ui_tokens input with Some t => set_as "tokens" (VInt t) cols | None => cols end in
  match ui_error input with Some e => set_as "error" (VText e) cols | None => cols end.

(** [update]; the explicit status check answers 400 like the validator
    and is modelled by the same error. *)
Definition api_update (input : UpdateLogInput) : ST (result LogOutput) :=
  if negb (validate_update input) then st_ret (Err EValidation)
  else if negb ((ui_status input =? -1) || (ui_status input =? 1)) then st_ret (Err EValidation)
  else
    st_bind (upsert_fields (with_pk (ui_uid input) (ui_id input)) (update_cols input))
      (fun '(doc, r) =>
       match r with
       | Err e => st_ret (Err e)
       | Ok _ => st_ret (Ok (LogOutput_from doc))
       end).

(* ------------------------------------------------------------------ *)
(** ** [get_fields] ([src/api/mod.rs]) *)

(** Strings are their UTF-8 bytes; a Rust [String] is valid UTF-8. *)
Definition byte (n : nat) : Ascii.ascii := Ascii.ascii_of_nat n.

Definition comma : Ascii.ascii := byte 44.

(** [char::is_whitespace] is Unicode's White_Space property: U+0009 to
    U+000D, U+0020, U+0085, U+00A0, U+1680, U+2000 to U+200A, U+2028,
    U+2029, U+202F, U+205F and U+3000.  These are their UTF-8 encodings. *)
Definition ws_utf8 : list (list Ascii.ascii) :=
  map (map byte)
    ([[9]; [10]; [11]; [12]; [13]; [32]; [194; 133]; [194; 160]; [225; 154; 128]]
     ++ map (fun k => [226; 128; k]) (seq 128 11)
     ++ [[226; 128; 168]; [226; 128; 169]; [226; 128; 175]; [226; 129; 159];
         [227; 128; 128]])%nat.

Fixpoint is_prefix (p s : list Ascii.ascii) : bool :=
  match p, s with
  | [], _ => true
  | x :: p', y :: s' => Ascii.eqb x y && is_prefix p' s'
  | _ :: _, [] => false
  end.

(** The length of the encoded character [s] starts with, if it is one of
    [encs]. *)
Fixpoint match_len (encs : list (list Ascii.ascii)) (s : list Ascii.ascii) : option nat :=
  match encs with
  | [] => None
  | e :: encs' => if is_prefix e s then Some (length e) else match_len encs' s
  end.

(** Drops leading characters among [encs], one at a time; each step drops
    at least one byte, so [length s] steps suffice. *)
Fixpoint strip_fuel (encs : list (list Ascii.ascii)) (n : nat) (s : list Ascii.ascii)
    : list Ascii.ascii :=
  match n with
  | O => s
  | S n' =>
      match match_len encs s with
      | Some k => strip_fuel encs n' (drop k s)
      | None => s
      end
  end.

Definition strip (encs : list (list Ascii.ascii)) (s : list Ascii.ascii) : list Ascii.ascii :=
  strip_fuel encs (length s) s.

(** [str::trim_start] *)
Definition trim_start (s : list Ascii.ascii) : list Ascii.ascii := strip ws_utf8 s.

(** [str::trim_end]: the same from the other end. *)
Definition trim_end (s : list Ascii.ascii) : list Ascii.ascii :=
  List.rev (strip (map (@List.rev Ascii.ascii) ws_utf8) (List.rev s)).

(** [str::trim] *)
Definition str_trim (s : string) : string :=
  String.string_of_list_ascii (trim_end (trim_start (String.list_ascii_of_string s))).

(** [str::split(',')]: the pieces between commas, empty pieces included. *)
Fixpoint split_comma (s : list Ascii.ascii) : list (list Ascii.ascii) :=
  match s with
  | [] => [[]]
  | c :: s' =>
      let rest := split_comma s' in
      if Ascii.eqb c comma then [] :: rest
      else match rest with x :: xs => (c :: x) :: xs | [] => [[c]] end
  end.

(** [pub fn get_fields(fields: Option<String>) -> Vec<String>] *)
Definition get_fields (fields_q : option string) : list string :=
  match fields_q with
  | None => []
  | Some f =>
      let f := str_trim f in
      if String.eqb f "" then []
      else map (fun p => str_trim (String.string_of_list_ascii p)) (split_comma (String.list_ascii_of_string f))
  end.

(** [get] ([QueryLog] has no validation rule): reads the entry with the
    requested projection and renders it. *)
Definition api_get (u i : Z) (fields_q : option string) : ST (result LogOutput) :=
  st_bind (get_one (with_pk u i) (get_fields fields_q)) (fun '(doc, r) =>
  match r with
  | Err e => st_ret (Err e)
  | Ok _ => st_ret (Ok (LogOutput_from doc))
  end).

(* ------------------------------------------------------------------ *)
(** ** Sample data *)

Definition w0 : World := mkWorld ∅ [].

Definition sample_input : CreateLogInput :=
  mkCreateLogInput 7 0 "user.login" 0 "1.2.3.4" [128] 1000.

Definition w_created : World := snd (api_create 100 sample_input w0).

Definition w_frozen : World :=
  snd (upsert_fields (with_pk 7 100) [("status"%string, VTinyInt 1)] w_created).

(** An [update] of entry 100 of owner 7 to status 1 with 5 tokens. *)
Definition sample_update : UpdateLogInput := mkUpdateLogInput 7 100 1 None (Some 5) None.

(** An identifier minted at unix second [ts] (counter bytes zero). *)
Definition id_at (ts : Z) : Z := Z.shiftl ts 64.

(** Owner 7 with five entries, minted at seconds 1000, ..., 5000. *)
Definition w_list : World :=
  mkWorld
    (fold_left (fun db ts => store_update db 7 (id_at ts) [("action"%string, VTinyInt 8)])
       [1000; 2000; 3000; 4000; 5000] ∅) [].

(* ================================================================== *)
(** * Properties *)

(** Specification helper: [[x]] when [x] is not in [l], else nothing. *)
Definition missing (x : string) (l : list string) : list string :=
  if in_dec String.string_dec x l then [] else [x].

(* ------------------------------------------------------------------ *)
(** ** Registry *)

Lemma length_ACTIONS : length ACTIONS = 72%nat.
Proof. reflexivity. Qed.

Lemma position_Some (a : string) (l : list string) (k : nat) :
  position a l = Some k -> nth k l "reserved"%string = a /\ (k < length l)%nat.
Proof.
  revert k. induction l as [|x l IH]; intros k H; simpl in H; [discriminate|].
  destruct (String.eqb_spec x a) as [->|Hne].
  - injection H as <-. simpl. split; [reflexivity | lia].
  - destruct (position a l) as [k'|] eqn:E; simpl in H; [|discriminate].
    injection H as <-. destruct (IH k' eq_refl) as [Hn Hlt].
    simpl. split; [exact Hn | lia].
Qed.

Lemma as_i8_small (k : nat) : (k < 128)%nat -> as_i8 (Z.of_nat k) = Z.of_nat k.
Proof. intros H. unfold as_i8. rewrite Z.mod_small; lia. Qed.

Lemma from_action_in_range (k : nat) :
  (k < 72)%nat -> from_action (Z.of_nat k) = nth k ACTIONS "reserved"%string.
Proof.
  intros H. unfold from_action. rewrite length_ACTIONS.
  replace ((Z.of_nat k <? 0) || (Z.of_nat 72 <=? Z.of_nat k)) with false
    by (symmetry; apply orb_false_intro; apply Z.ltb_ge || apply Z.leb_gt; lia).
  now rewrite Nat2Z.id.
Qed.

Lemma to_action_Some (n : string) (c : Z) :
  to_action n = Some c -> from_action c = n /\ n <> "reserved"%string.
Proof.
  unfold to_action. destruct (String.eqb_spec n "reserved") as [_|Hne]; [discriminate|].
  destruct (position n ACTIONS) as [k|] eqn:E; simpl; [|discriminate].
  intros H; injection H as <-.
  destruct (position_Some _ _ _ E) as [Hn Hlt]. rewrite length_ACTIONS in Hlt.
  rewrite as_i8_small by lia. rewrite from_action_in_range by lia.
  split; assumption.
Qed.

(** The table is checked slot by slot. *)
Lemma registry_table_check :
  forallb (fun k => let c := Z.of_nat k in
                    String.eqb (from_action c) "reserved"
                    || bool_decide (to_action (from_action c) = Some c))
          (seq 0 72) = true.
Proof. vm_compute. reflexivity. Qed.

Lemma from_action_to_action (c : Z) :
  0 <= c < 72 -> from_action c <> "reserved"%string -> to_action (from_action c) = Some c.
Proof.
  intros Hr Hn.
  pose proof (proj1 (forallb_forall _ _) registry_table_check (Z.to_nat c)) as Hc.
  cbv beta zeta in Hc. rewrite Z2Nat.id in Hc by lia.
  assert (Hin : In (Z.to_nat c) (seq 0 72)) by (apply in_seq; lia).
  specialize (Hc Hin). apply orb_prop in Hc as [Hc|Hc].
  - apply String.eqb_eq in Hc. contradiction.
  - exact (bool_decide_eq_true_1 _ Hc).
Qed.

(* ------------------------------------------------------------------ *)
(** ** Field projection *)

Lemma contains_In (l : list string) (f : string) : contains l f = true <-> In f l.
Proof.
  unfold contains. rewrite existsb_exists. split.
  - intros [x [Hx Heq]]. apply String.eqb_eq in Heq. subst. exact Hx.
  - intros H. exists f. split; [exact H | apply String.eqb_refl].
Qed.

Lemma contains_missing (l : list string) (f : string) :
  (if contains l f then [] else [f]) = missing f l.
Proof.
  unfold missing. destruct (contains l f) eqn:E; destruct (in_dec String.string_dec f l) as [Hi|Hi];
    try reflexivity.
  - apply contains_In in E. contradiction.
  - apply contains_In in Hi. congruence.
Qed.

Lemma push_missing_app (f : string) (F extra : list string) :
  ~ In f extra -> push_missing f (F ++ extra) = F ++ extra ++ missing f F.
Proof.
  intros Hx. unfold push_missing.
  rewrite <- contains_missing. unfold contains. rewrite existsb_app.
  destruct (existsb (String.eqb f) F) eqn:E; simpl.
  - rewrite app_nil_r. reflexivity.
  - destruct (existsb (String.eqb f) extra) eqn:E2.
    + exfalso. apply Hx. apply (proj1 (contains_In extra f)). exact E2.
    + rewrite <- app_assoc. reflexivity.
Qed.

Lemma first_invalid_none (all F : list string) :
  (forall x, In x F -> In x all) -> first_invalid all F = None.
Proof.
  induction F as [|f F IH]; intros H; simpl; [reflexivity|].
  replace (contains all f) with true by (symmetry; apply contains_In, H; left; reflexivity).
  apply IH. intros x Hx. apply H. right. exact Hx.
Qed.

Lemma first_invalid_none_inv (all F : list string) :
  first_invalid all F = None -> forall x, In x F -> In x all.
Proof.
  induction F as [|f F IH]; simpl; intros H x Hx; [contradiction|].
  destruct (contains all f) eqn:C; [|discriminate].
  destruct Hx as [<-|Hx]; [apply contains_In; exact C | exact (IH H x Hx)].
Qed.

Lemma first_invalid_first (all A B : list string) (y : string) :
  (forall x, In x A -> In x all) -> ~ In y all -> first_invalid all (A ++ y :: B) = Some y.
Proof.
  induction A as [|a A IH]; intros HA Hy; simpl.
  - destruct (contains all y) eqn:E; [|reflexivity].
    apply contains_In in E. contradiction.
  - replace (contains all a) with true by (symmetry; apply contains_In, HA; left; reflexivity).
    apply IH; [|exact Hy]. intros x Hx. apply HA. right. exact Hx.
Qed.

Lemma in_missing (x f : string) (l : list string) : In x (l ++ missing f l) <-> In x l \/ x = f.
Proof.
  unfold missing. destruct (in_dec String.string_dec f l) as [Hi|Hi].
  - rewrite app_nil_r. split; [tauto|]. intros [H| ->]; assumption.
  - rewrite in_app_iff. simpl. split; intros; intuition.
Qed.

Lemma select_fields_valid (F : list string) (with_pk : bool) :
  F <> [] -> (forall x, In x F -> In x fields) ->
  select_fields F with_pk =
    Ok (F ++ missing "action" F ++ missing "status" F
          ++ (if with_pk then missing "uid" F ++ missing "id" F else [])).
Proof.
  intros Hne Hall. unfold select_fields.
  destruct F as [|f F']; [contradiction|].
  rewrite (first_invalid_none _ _ Hall).
  set (F := f :: F').
  assert (Ha : push_missing "action" F = F ++ missing "action" F).
  { rewrite <- (app_nil_r F) at 1. rewrite push_missing_app by (simpl; tauto). reflexivity. }
  rewrite Ha.
  rewrite (push_missing_app "status" F (missing "action" F))
    by (unfold missing; destruct (in_dec _ _ _); simpl; [tauto|]; intros [H|H]; [discriminate|exact H]).
  destruct with_pk.
  - rewrite (push_missing_app "uid" F (missing "action" F ++ missing "status" F))
      by (unfold missing; do 2 destruct (in_dec _ _ _); simpl; intuition discriminate).
    rewrite <- app_assoc.
    rewrite (push_missing_app "id" F (missing "action" F ++ missing "status" F ++ missing "uid" F))
      by (unfold missing; do 3 destruct (in_dec _ _ _); simpl; intuition discriminate).
    rewrite <- !app_assoc. reflexivity.
  - rewrite app_nil_r. reflexivity.
Qed.

Lemma mandatory_in (F : list string) :
  let fs := F ++ missing "action" F ++ missing "status" F
              ++ (missing "uid" F ++ missing "id" F) in
  In "action"%string fs /\ In "status"%string fs /\ In "uid"%string fs /\ In "id"%string fs.
Proof.
  unfold missing.
  destruct (in_dec String.string_dec "action" F), (in_dec String.string_dec "status" F),
    (in_dec String.string_dec "uid" F), (in_dec String.string_dec "id" F);
    repeat rewrite in_app_iff; simpl; intuition.
Qed.

(** With the primary key forced, a successful projection has the four
    mandatory columns. *)
Lemma select_fields_pk_mandatory (F fs : list string) :
  select_fields F true = Ok fs ->
  In "action"%string fs /\ In "status"%string fs /\ In "uid"%string fs /\ In "id"%string fs.
Proof.
  destruct F as [|f F'].
  - simpl. intros H. injection H as <-. simpl. tauto.
  - destruct (first_invalid fields (f :: F')) as [y|] eqn:E.
    + unfold select_fields. rewrite E. discriminate.
    + assert (Hall : forall x, In x (f :: F') -> In x fields).
      { apply first_invalid_none_inv. exact E. }
      rewrite (select_fields_valid (f :: F') true ltac:(intros ?; discriminate) Hall).
      intros H. injection H. intros <-. exact (mandatory_in (f :: F')).
Qed.

(* ------------------------------------------------------------------ *)
(** ** Output *)

Lemma in_dec_cons {B : Type} (x a : string) (l : list string) (v o : B) :
  (if in_dec String.string_dec x (a :: l) then v else o)
  = (if in_dec String.string_dec x l then v else if String.eqb a x then v else o).
Proof.
  destruct (in_dec String.string_dec x (a :: l)) as [H|H];
    destruct (in_dec String.string_dec x l) as [H'|H'];
    destruct (String.eqb_spec a x) as [E|E]; simpl in *; try reflexivity;
    intuition congruence.
Qed.

Ltac skip_name f s :=
  destruct (String.eqb_spec f s) as [->|?]; [reflexivity|].

Lemma fold_output (val : Log) (fs : list string) (rt : LogOutput) :
  fold_left (output_field val) fs rt =
  mkLogOutput (o_uid rt) (o_id rt) (o_action rt) (o_status rt)
    (if in_dec String.string_dec "gid" fs then Some (gid val) else o_gid rt)
    (if in_dec String.string_dec "ip" fs then Some (ip val) else o_ip rt)
    (if in_dec String.string_dec "payload" fs then Some (payload val) else o_payload rt)
    (if in_dec String.string_dec "tokens" fs then Some (as_u32 (tokens val)) else o_tokens rt)
    (if in_dec String.string_dec "error" fs
     then (if String.eqb (error val) "" then None else Some (error val))
     else o_error rt).
Proof.
  revert rt. induction fs as [|f fs IH]; intros [u i a st g p pl t e]; cbn [fold_left].
  - reflexivity.
  - rewrite IH. rewrite !(in_dec_cons _ f fs).
    unfold output_field.
    skip_name f "gid"%string. skip_name f "ip"%string. skip_name f "payload"%string.
    skip_name f "tokens"%string. skip_name f "error"%string.
    reflexivity.
Qed.

(* ------------------------------------------------------------------ *)
(** ** Claims: registry, projection, output *)

(** C8: every code outside [[0, 72)], negative ones included, is named
    ["reserved"], and the name ["reserved"] has no code. *)
Theorem from_action_out_of_range (c : Z) (H : c < 0 \/ 72 <= c) :
  from_action c = "reserved"%string /\ to_action "reserved" = None.
Proof.
  split; [|reflexivity].
  unfold from_action. rewrite length_ACTIONS.
  replace ((c <? 0) || (Z.of_nat 72 <=? c)) with true; [reflexivity|].
  symmetry. destruct H as [H|H].
  - apply orb_true_intro. left. apply Z.ltb_lt. exact H.
  - apply orb_true_intro. right. apply Z.leb_le. lia.
Qed.

Lemma from_action_out_of_range_witness :
  from_action (-5) = "reserved"%string /\ to_action "reserved" = None.
Proof. apply (from_action_out_of_range (-5)). left. lia. Defined.

(** C9: on assigned codes the registry is a bijection: the name of an
    assigned code maps back to that code, and a name that maps to a code
    is that code's name and is not ["reserved"]. *)
Theorem registry_bidirectional :
  (forall c, 0 <= c < 72 -> from_action c <> "reserved"%string ->
             to_action (from_action c) = Some c) /\
  (forall n c, to_action n = Some c -> from_action c = n /\ n <> "reserved"%string).
Proof.
  split.
  - exact from_action_to_action.
  - exact to_action_Some.
Qed.

Lemma registry_bidirectional_witness :
  to_action (from_action 8) = Some 8 /\ from_action 24 = "group.create"%string.
Proof.
  split.
  - apply (proj1 registry_bidirectional 8); [lia | vm_compute; discriminate].
  - apply (proj2 registry_bidirectional "group.create"%string 24). vm_compute. reflexivity.
Defined.

(** C3: an empty request selects every field; a request with a name
    outside [Log::fields()] fails, naming the first such name; a valid
    request is kept in order with ["action"] and ["status"] (and, with the
    primary key, ["uid"] and ["id"]) appended when missing; so with the
    primary key the four mandatory columns are always selected. *)
Theorem select_fields_correct (F : list string) (with_pk : bool) :
  (F = [] -> select_fields F with_pk = Ok fields) /\
  (forall A y B, F = A ++ y :: B -> (forall x, In x A -> In x fields) -> ~ In y fields ->
     select_fields F with_pk = Err (EInvalidField y)) /\
  (F <> [] -> (forall x, In x F -> In x fields) ->
     select_fields F with_pk =
       Ok (F ++ missing "action" F ++ missing "status" F
             ++ (if with_pk then missing "uid" F ++ missing "id" F else []))) /\
  (forall fs, select_fields F true = Ok fs ->
     In "action"%string fs /\ In "status"%string fs /\ In "uid"%string fs /\ In "id"%string fs).
Proof.
  split; [|split; [|split]].
  - intros ->. reflexivity.
  - intros A y B -> HA Hy. unfold select_fields.
    destruct (A ++ y :: B) as [|h t] eqn:Hl; [destruct A; discriminate|].
    rewrite <- Hl. rewrite (first_invalid_first _ _ _ _ HA Hy). reflexivity.
  - apply select_fields_valid.
  - apply select_fields_pk_mandatory.
Qed.

Lemma select_fields_correct_witness :
  select_fields ["ip"; "bogus"]%string true = Err (EInvalidField "bogus") /\
  select_fields ["ip"]%string true = Ok ["ip"; "action"; "status"; "uid"; "id"]%string.
Proof.
  split.
  - apply (proj1 (proj2 (select_fields_correct ["ip"; "bogus"]%string true))
             ["ip"]%string "bogus"%string []).
    + reflexivity.
    + intros x [<-|[]]. vm_compute. tauto.
    + vm_compute. intuition discriminate.
  - rewrite (proj1 (proj2 (proj2 (select_fields_correct ["ip"]%string true)))).
    + reflexivity.
    + intros Hn. discriminate.
    + intros x [<-|[]]. vm_compute. tauto.
Defined.

(** C7: [LogOutput::from] always renders [uid], [id], the action name and
    [status]; an optional field is rendered only when its name is in
    [_fields], and [error] is absent also when it holds the empty string. *)
Theorem LogOutput_from_spec (v : Log) :
  let o := LogOutput_from v in
  o_uid o = uid v /\ o_id o = id v /\ o_action o = from_action (action v) /\
  o_status o = status v /\
  o_gid o = (if in_dec String.string_dec "gid" (_fields v) then Some (gid v) else None) /\
  o_ip o = (if in_dec String.string_dec "ip" (_fields v) then Some (ip v) else None) /\
  o_payload o =
    (if in_dec String.string_dec "payload" (_fields v) then Some (payload v) else None) /\
  o_tokens o =
    (if in_dec String.string_dec "tokens" (_fields v) then Some (as_u32 (tokens v)) else None) /\
  o_error o =
    (if in_dec String.string_dec "error" (_fields v)
     then (if String.eqb (error v) "" then None else Some (error v))
     else None).
Proof.
  unfold LogOutput_from. rewrite fold_output. simpl.
  repeat split.
Qed.

(* ------------------------------------------------------------------ *)
(** ** The store: partitions and point reads *)

(** The stored columns of row [(u, i)], if the row exists. *)
Definition lookup_row (db : Store) (u i : Z) : option Row := default ∅ (db !! u) !! i.

Definition to_full (u : Z) (kc : Z * Row) : FullRow := ((u, kc.1), kc.2).

Lemma partition_perm (db : Store) (u : Z) :
  partition db u ≡ₚ map_to_list (default ∅ (db !! u)).
Proof. apply merge_sort_Permutation. Qed.

Lemma partition_NoDup (db : Store) (u : Z) : NoDup ((partition db u).*1).
Proof. rewrite partition_perm. apply NoDup_fst_map_to_list. Qed.

Lemma elem_of_partition (db : Store) (u k : Z) (c : Row) :
  (k, c) ∈ partition db u <-> lookup_row db u k = Some c.
Proof. rewrite partition_perm. apply elem_of_map_to_list. Qed.

Lemma StronglySorted_strict (l : list (Z * Row)) :
  StronglySorted id_desc l -> NoDup l.*1 -> StronglySorted (fun a b => b.1 < a.1) l.
Proof.
  induction 1 as [|x l Hl IH Hx]; intros Hnd; constructor.
  - apply IH. simpl in Hnd. inversion Hnd; assumption.
  - simpl in Hnd. inversion Hnd as [|? ? Hnotin Hnd']; subst.
    rewrite Forall_forall in Hx |- *. intros y Hy.
    specialize (Hx y Hy). unfold id_desc in Hx.
    assert (y.1 <> x.1).
    { intros E. apply Hnotin. rewrite <- E. apply list_elem_of_fmap_2. exact Hy. }
    lia.
Qed.

Global Instance id_desc_trans : Transitive id_desc.
Proof. intros a b c. unfold id_desc. lia. Qed.

Global Instance id_desc_total : Total id_desc.
Proof. intros a b. unfold id_desc. lia. Qed.

(** Rows of a partition come in strictly descending identifier order. *)
Lemma partition_sorted (db : Store) (u : Z) :
  StronglySorted (fun a b => b.1 < a.1) (partition db u).
Proof.
  apply StronglySorted_strict; [apply StronglySorted_merge_sort; [exact id_desc_trans | exact id_desc_total] | apply partition_NoDup].
Qed.

Lemma filter_map_full (p : FullRow -> bool) (q : Z * Row -> bool) (u : Z) (l : list (Z * Row)) :
  (forall k cs, p ((u, k), cs) = q (k, cs)) ->
  List.filter p (map (fun '(i, cs) => ((u, i), cs)) l) = map (to_full u) (List.filter q l).
Proof.
  intros H. induction l as [|[k cs] l IH]; simpl; [reflexivity|].
  rewrite H. destruct (q (k, cs)); simpl; rewrite IH; reflexivity.
Qed.

Lemma filter_key_notin (l : list (Z * Row)) (i : Z) :
  (forall c, (i, c) ∉ l) -> List.filter (fun kc => bool_decide (kc.1 = i)) l = [].
Proof.
  induction l as [|[k c] l IH]; intros H; simpl; [reflexivity|].
  rewrite bool_decide_eq_false_2.
  - apply IH. intros c' Hc. apply (H c'). apply elem_of_cons. right. exact Hc.
  - simpl. intros ->. apply (H c). apply elem_of_cons. left. reflexivity.
Qed.

Lemma filter_key_in (l : list (Z * Row)) (i : Z) (row : Row) :
  NoDup l.*1 -> (i, row) ∈ l ->
  List.filter (fun kc => bool_decide (kc.1 = i)) l = [(i, row)].
Proof.
  induction l as [|[k c] l IH]; intros Hnd Hin; [inversion Hin|].
  simpl in Hnd. inversion Hnd as [|? ? Hnotin Hnd']; subst. simpl.
  apply elem_of_cons in Hin as [Heq|Hin].
  - injection Heq as -> ->. rewrite bool_decide_eq_true_2 by reflexivity.
    f_equal. apply filter_key_notin. intros c' Hc'. apply Hnotin.
    apply list_elem_of_fmap. eexists. split; [|exact Hc']. reflexivity.
  - rewrite bool_decide_eq_false_2.
    + apply IH; assumption.
    + intros E. simpl in E. subst k. apply Hnotin.
      apply list_elem_of_fmap. exists (i, row). split; [reflexivity | exact Hin].
Qed.


Lemma filter_point (db : Store) (u i : Z) :
  List.filter (fun kc => bool_decide (kc.1 = i)) (partition db u) =
  match lookup_row db u i with Some row => [(i, row)] | None => [] end.
Proof.
  destruct (lookup_row db u i) as [row|] eqn:E.
  - apply filter_key_in; [apply partition_NoDup | apply elem_of_partition; exact E].
  - apply filter_key_notin. intros c Hc. apply elem_of_partition in Hc. congruence.
Qed.

Definition cols_valid (fs : list string) : bool :=
  forallb (fun c => bool_decide (is_Some (col_type c))) fs.

(** [SELECT fs FROM log WHERE uid=? AND id=? LIMIT 1] *)
Lemma exec_point (db : Store) (u i : Z) (fs : list string) :
  cols_valid fs = true ->
  exec_select db (mkSelect fs [CEq "uid"; CEq "id"] (LimitLit 1)) [VId u; VId i] =
  Ok (match lookup_row db u i with Some row => [((u, i), row)] | None => [] end).
Proof.
  intros Hv. unfold exec_select, bind_select. cbn -[partition]. unfold cols_valid in Hv.
  rewrite Hv. cbn -[partition].
  rewrite (filter_map_full _ (fun kc => bool_decide (kc.1 = i))).
  - rewrite filter_point. destruct (lookup_row db u i); reflexivity.
  - intros k cs. cbn. rewrite andb_true_r.
    destruct (Z.compare_spec k i) as [->|H|H].
    + rewrite !bool_decide_eq_true_2; reflexivity.
    + rewrite !bool_decide_eq_false_2; [reflexivity | lia | discriminate].
    + rewrite !bool_decide_eq_false_2; [reflexivity | lia | discriminate].
Qed.

(* ------------------------------------------------------------------ *)
(** ** The guarded upsert *)

Lemma execute_iter_world (q : Select) (ps : list CqlValue) (w : World) :
  execute_iter q ps w = (exec_select (w_db w) q ps, mkWorld (w_db w) (w_trace w ++ [OpRead])).
Proof. reflexivity. Qed.

(** The guard read of [upsert_fields]: [get_one(db, vec!["status"])]. *)
Lemma get_one_status (self : Log) (w : World) :
  get_one self ["status"%string] w =
  (let self1 := with_fields self ["status"; "action"]%string in
   match lookup_row (w_db w) (uid self) (id self) with
   | Some row => (fill_log self1 ["status"; "action"]%string ((uid self, id self), row), Ok tt)
   | None => (self1, Err ENotFound)
   end, mkWorld (w_db w) (w_trace w ++ [OpRead])).
Proof.
  destruct self as [u i a st g p pl t e fs].
  unfold get_one. cbn -[exec_select lookup_row fill_log].
  rewrite exec_point by reflexivity.
  destruct (lookup_row (w_db w) u i); reflexivity.
Qed.

Lemma status_after_guard (self : Log) (u i : Z) (row : Row) :
  status (fill_log (with_fields self ["status"; "action"]%string) ["status"; "action"]%string
            ((u, i), row)) = as_tiny (row !! "status"%string).
Proof. destruct self. reflexivity. Qed.

(** A read never depends on anything but the stored rows. *)
Lemma get_one_result_db (l : Log) (F : list string) (w w' : World) :
  w_db w = w_db w' -> fst (get_one l F w) = fst (get_one l F w').
Proof.
  intros H. unfold get_one. destruct (select_fields F false); [|reflexivity].
  unfold st_bind, execute_iter. simpl. rewrite H.
  destruct (exec_select _ _ _) as [[|r rs]|e]; reflexivity.
Qed.

Lemma exec_update_err (db : Store) (set : list string) (ps : list CqlValue) (e : Error) :
  exec_update db set ps = Err e -> e = EQuery.
Proof.
  unfold exec_update. intros H. repeat case_match; congruence.
Qed.

Lemma upsert_frozen_core (self : Log) (cols : ColumnsMap) (w : World) (row : Row) (s : Z) :
  lookup_row (w_db w) (uid self) (id self) = Some row ->
  row !! "status"%string = Some (VTinyInt s) -> s <> 0 ->
  exists self', upsert_fields self cols w =
                ((self', Err EFrozen), mkWorld (w_db w) (w_trace w ++ [OpRead])).
Proof.
  intros Hrow Hst Hs. unfold upsert_fields, st_bind.
  rewrite get_one_status. cbn zeta. rewrite Hrow.
  rewrite status_after_guard, Hst. simpl.
  destruct (Z.eqb_spec s 0) as [E|_]; [contradiction|]. simpl.
  eexists. reflexivity.
Qed.

(** Where an [upsert_fields] error other than the frozen one comes from. *)
Lemma upsert_invalid_field_world (self : Log) (cols : ColumnsMap) (w : World)
    (self' : Log) (f : string) (w' : World) :
  upsert_fields self cols w = ((self', Err (EInvalidField f)), w') ->
  w_trace w' = w_trace w ++ [OpRead] /\ w_db w' = w_db w.
Proof.
  unfold upsert_fields, st_bind. rewrite get_one_status. cbn zeta.
  destruct (lookup_row (w_db w) (uid self) (id self)) as [row|];
    (destruct (_ && _); [cbn; intros H; injection H; discriminate|]);
    (destruct (collect_set cols) as [[set params]|e] eqn:Hc;
      [ unfold execute_update; cbn;
        destruct (exec_update _ _ _) as [db'|e] eqn:Ex; cbn; intros H; injection H;
        [discriminate | intros ? He ?; apply exec_update_err in Ex; subst; discriminate]
      | cbn; intros H; injection H; intros <- _ _; split; reflexivity ]).
Qed.

(* ------------------------------------------------------------------ *)
(** ** Claims: the frozen guard *)

(** C2: on an entry whose stored [status] is non-zero, [upsert_fields]
    fails with the frozen error whatever the column map; only the guard
    read reaches the store, the stored rows are unchanged, and every later
    [get_one] returns what it returned before the attempt. *)
Theorem upsert_fields_frozen (w : World) (self : Log) (cols : ColumnsMap) (row : Row) (s : Z)
  (Hrow : lookup_row (w_db w) (uid self) (id self) = Some row)
  (Hst : row !! "status"%string = Some (VTinyInt s)) (Hs : s <> 0) :
  let '((_, r), w') := upsert_fields self cols w in
  r = Err EFrozen /\ w_db w' = w_db w /\ w_trace w' = w_trace w ++ [OpRead] /\
  (forall (l : Log) (F : list string), fst (get_one l F w') = fst (get_one l F w)).
Proof.
  destruct (upsert_frozen_core self cols w row s Hrow Hst Hs) as [self' ->].
  split; [reflexivity|]. split; [reflexivity|]. split; [reflexivity|].
  intros l F. apply get_one_result_db. reflexivity.
Qed.

Lemma upsert_fields_frozen_witness :
  let '((_, r), w') := upsert_fields (with_pk 7 100) [("error"%string, VText "late")] w_frozen in
  r = Err EFrozen /\ w_db w' = w_db w_frozen /\ w_trace w' = w_trace w_frozen ++ [OpRead] /\
  (forall (l : Log) (F : list string), fst (get_one l F w') = fst (get_one l F w_frozen)).
Proof.
  apply (upsert_fields_frozen w_frozen (with_pk 7 100) _
           (default ∅ (lookup_row (w_db w_frozen) 7 100)) 1).
  - vm_compute. reflexivity.
  - vm_compute. reflexivity.
  - lia.
Defined.

(** C10: the frozen guard is checked before the column names: on a frozen
    entry a map with a name outside the allow-list still fails with the
    frozen error, and the invalid-field error is only returned after the
    guard read and before any write. *)
Theorem upsert_fields_guard_first (w : World) (self : Log) (cols : ColumnsMap) :
  let '((_, r), w') := upsert_fields self cols w in
  (forall row s, lookup_row (w_db w) (uid self) (id self) = Some row ->
     row !! "status"%string = Some (VTinyInt s) -> s <> 0 ->
     (exists k v, In (k, v) cols /\ ~ In k valid_fields) -> r = Err EFrozen) /\
  (forall f, r = Err (EInvalidField f) ->
     w_trace w' = w_trace w ++ [OpRead] /\ w_db w' = w_db w).
Proof.
  destruct (upsert_fields self cols w) as [[self' r] w'] eqn:E. split.
  - intros row s Hrow Hst Hs _.
    destruct (upsert_frozen_core self cols w row s Hrow Hst Hs) as [self'' E'].
    rewrite E in E'. injection E'. intros _ -> _. reflexivity.
  - intros f ->. exact (upsert_invalid_field_world _ _ _ _ _ _ E).
Qed.

Lemma upsert_fields_guard_first_witness :
  snd (fst (upsert_fields (with_pk 7 100) [("owner"%string, VInt 1)] w_frozen))
    = Err EFrozen /\
  w_trace (snd (upsert_fields (with_pk 7 100) [("owner"%string, VInt 1)] w0)) = [OpRead].
Proof.
  pose proof (upsert_fields_guard_first w_frozen (with_pk 7 100) [("owner"%string, VInt 1)])
    as H1.
  pose proof (upsert_fields_guard_first w0 (with_pk 7 100) [("owner"%string, VInt 1)]) as H2.
  destruct (upsert_fields (with_pk 7 100) _ w_frozen) as [[s1 r1] w1] eqn:E1.
  destruct (upsert_fields (with_pk 7 100) _ w0) as [[s2 r2] w2] eqn:E2.
  destruct H1 as [H1 _]. destruct H2 as [_ H2]. simpl. split.
  - apply (H1 (default ∅ (lookup_row (w_db w_frozen) 7 100)) 1).
    + vm_compute. reflexivity.
    + vm_compute. reflexivity.
    + lia.
    + exists "owner"%string, (VInt 1). split; [left; reflexivity|]. vm_compute. intuition discriminate.
  - apply (H2 "owner"%string).
    vm_compute in E2. injection E2. intros _ <- _. reflexivity.
Defined.

(* ------------------------------------------------------------------ *)
(** ** Create *)

Lemma lookup_store_update (db : Store) (u i : Z) (kvs : list (string * CqlValue)) :
  lookup_row (store_update db u i kvs) u i =
  Some (set_cols kvs (default ∅ (lookup_row db u i))).
Proof.
  unfold lookup_row, store_update. rewrite lookup_insert_eq. simpl.
  rewrite lookup_insert_eq. reflexivity.
Qed.

Lemma get_one_all (u i : Z) (w : World) :
  get_one (with_pk u i) [] w =
  (match lookup_row (w_db w) u i with
   | Some row => (fill_log (with_fields (with_pk u i) fields) fields ((u, i), row), Ok tt)
   | None => (with_fields (with_pk u i) fields, Err ENotFound)
   end, mkWorld (w_db w) (w_trace w ++ [OpRead])).
Proof.
  unfold get_one. cbn -[exec_select lookup_row fill_log].
  rewrite exec_point by reflexivity.
  destruct (lookup_row (w_db w) u i); reflexivity.
Qed.

(** The columns [create] writes. *)
Definition create_row (input : CreateLogInput) (i : Z) : Row :=
  set_cols [("action"%string, VTinyInt i); ("gid"%string, VId (ci_gid input));
            ("ip"%string, VText (ci_ip input)); ("payload"%string, VBlob (ci_payload input));
            ("tokens"%string, VInt (ci_tokens input))] ∅.

Lemma api_create_run (new_id : Z) (input : CreateLogInput) (w : World) (i : Z) :
  validate_create input = true -> to_action (ci_action input) = Some i ->
  lookup_row (w_db w) (ci_uid input) new_id = None ->
  api_create new_id input w =
  (Ok (LogOutput_from (with_fields (with_action (with_pk (ci_uid input) new_id) i)
                                   ["status"; "action"]%string)),
   mkWorld (store_update (w_db w) (ci_uid input) new_id
              [("action"%string, VTinyInt i); ("gid"%string, VId (ci_gid input));
               ("ip"%string, VText (ci_ip input)); ("payload"%string, VBlob (ci_payload input));
               ("tokens"%string, VInt (ci_tokens input))])
           ((w_trace w ++ [OpRead]) ++ [OpWrite])).
Proof.
  intros Hv Hi Hf. unfold api_create. rewrite Hv, Hi. cbn [negb].
  unfold upsert_fields, st_bind. cbv beta. rewrite get_one_status.
  destruct input as [u g a st ipv pl tk]. cbn -[lookup_row store_update LogOutput_from] in Hf |- *. rewrite Hf.
  cbn -[store_update LogOutput_from]. reflexivity.
Qed.

(* ------------------------------------------------------------------ *)
(** ** Claims: create *)

(** C6 (as the code does it): a request failing input validation is
    rejected with the validation error before its action name is resolved,
    and the store is untouched. For a request that passes validation, an
    unknown action name fails with the invalid-action error before the
    store is touched; otherwise [create] runs [upsert_fields],
    whose frozen guard reads the fresh key (no row, so it passes), then
    writes [action], [gid], [ip], [payload] and [tokens] in one upsert
    keyed by [(uid, id)], leaving [status] unset; the returned entry has
    status 0, and a later [get_one] with no field filter reads back the
    same action code, owner and entry id, and status 0 (pending). *)
Theorem api_create_spec (new_id : Z) (input : CreateLogInput) (w : World) :
  (validate_create input = false -> api_create new_id input w = (Err EValidation, w)) /\
  (validate_create input = true ->
  (to_action (ci_action input) = None ->
     api_create new_id input w = (Err (EInvalidAction (ci_action input)), w)) /\
  (forall i, to_action (ci_action input) = Some i ->
     lookup_row (w_db w) (ci_uid input) new_id = None ->
     let '(r, w') := api_create new_id input w in
     (exists o, r = Ok o /\ o_status o = 0 /\ o_uid o = ci_uid input /\ o_id o = new_id /\
                o_action o = ci_action input) /\
     w_trace w' = w_trace w ++ [OpRead; OpWrite] /\
     lookup_row (w_db w') (ci_uid input) new_id = Some (create_row input i) /\
     create_row input i !! "status"%string = None /\
     exists l, fst (get_one (with_pk (ci_uid input) new_id) [] w') = (l, Ok tt) /\
               action l = i /\ uid l = ci_uid input /\ id l = new_id /\ status l = 0)).
Proof.
  split; [intros Hv; unfold api_create; rewrite Hv; reflexivity|].
  intros Hv. split.
  - intros Hn. unfold api_create. rewrite Hv, Hn. reflexivity.
  - intros i Hi Hf. rewrite (api_create_run new_id input w i Hv Hi Hf).
    split; [|split; [|split; [|split]]].
    + eexists. split; [reflexivity|]. cbn.
      split; [reflexivity|]. split; [reflexivity|]. split; [reflexivity|].
      apply (to_action_Some _ _ Hi).
    + cbn. rewrite <- app_assoc. reflexivity.
    + cbn. rewrite lookup_store_update, Hf. reflexivity.
    + reflexivity.
    + rewrite get_one_all. cbn [w_db]. rewrite lookup_store_update, Hf.
      eexists. split; [reflexivity|]. cbn. repeat split.
Qed.

Lemma api_create_spec_witness :
  fst (api_create 100 sample_input w0) =
    Ok (mkLogOutput 7 100 "user.login" 0 None None None None None) /\
  create_row sample_input 8 !! "status"%string = None.
Proof.
  destruct (api_create_spec 100 sample_input w0) as [_ H0].
  destruct (H0 ltac:(reflexivity)) as [_ H].
  specialize (H 8 ltac:(reflexivity) ltac:(reflexivity)).
  destruct (api_create 100 sample_input w0) as [r w'] eqn:E.
  destruct H as ([o [-> [Hs [Hu [Hi Ha]]]]] & _ & _ & Hst & _).
  split; [|exact Hst]. simpl.
  vm_compute in E. injection E. intros _ Ho. rewrite <- Ho. reflexivity.
Defined.

(** C6 as stated fails: the created row has no [status] column (the code
    never writes it), the frozen guard's read does run before the write,
    and a request failing input validation is rejected with the validation
    error even when its action name is unknown. *)
Lemma api_create_counterexample :
  default ∅ (lookup_row (w_db w_created) 7 100) !! "status"%string = None /\
  w_trace w_created = [OpRead; OpWrite] /\
  fst (api_create 100 (mkCreateLogInput 7 0 "no.such.action" 0 "" [] (-1)) w0) = Err EValidation.
Proof. vm_compute. repeat split. Qed.

(* ------------------------------------------------------------------ *)
(** ** Listing *)

Lemma select_fields_sub (F fs : list string) (b : bool) :
  select_fields F b = Ok fs -> forall x, In x fs -> In x fields.
Proof.
  assert (Hm : forall x, In x ["action"; "status"; "uid"; "id"]%string -> In x fields)
    by (simpl; intros x Hx; intuition (subst; simpl; intuition)).
  destruct F as [|f F'].
  - simpl. intros H. injection H as <-. auto.
  - destruct (first_invalid fields (f :: F')) as [y|] eqn:E.
    + unfold select_fields. rewrite E. discriminate.
    + assert (Hall : forall x, In x (f :: F') -> In x fields)
        by (apply first_invalid_none_inv; exact E).
      rewrite (select_fields_valid (f :: F') b ltac:(intros ?; discriminate) Hall).
      intros H. injection H as <-. intros x Hx.
      rewrite app_comm_cons, in_app_iff in Hx.
      destruct Hx as [Hx|Hx]; [apply Hall; exact Hx|].
      apply Hm. unfold missing in Hx.
      repeat destruct (in_dec _ _ _); destruct b; rewrite ?in_app_iff in Hx; simpl in Hx; simpl;
        intuition.
Qed.

Lemma select_fields_cols_valid (F fs : list string) (b : bool) :
  select_fields F b = Ok fs -> cols_valid fs = true.
Proof.
  intros H. unfold cols_valid. apply forallb_forall. intros x Hx.
  apply (select_fields_sub F fs b H) in Hx. apply bool_decide_eq_true.
  simpl in Hx. intuition (subst; eexists; reflexivity).
Qed.

Lemma fill_field_id (l : Log) (f : string) (r : FullRow) :
  id (fill_field l f (col_of r f)) = if String.eqb f "id" then r.1.2 else id l.
Proof.
  destruct r as [[u k] cs]. destruct l. unfold fill_field, col_of.
  skip_name f "uid"%string. skip_name f "id"%string. skip_name f "action"%string.
  skip_name f "status"%string. skip_name f "gid"%string. skip_name f "ip"%string.
  skip_name f "payload"%string. skip_name f "tokens"%string. skip_name f "error"%string.
  reflexivity.
Qed.

Lemma fill_field_uid (l : Log) (f : string) (r : FullRow) :
  uid (fill_field l f (col_of r f)) = if String.eqb f "uid" then r.1.1 else uid l.
Proof.
  destruct r as [[u k] cs]. destruct l. unfold fill_field, col_of.
  skip_name f "uid"%string. skip_name f "id"%string. skip_name f "action"%string.
  skip_name f "status"%string. skip_name f "gid"%string. skip_name f "ip"%string.
  skip_name f "payload"%string. skip_name f "tokens"%string. skip_name f "error"%string.
  reflexivity.
Qed.

Lemma fill_log_id (fs : list string) (l : Log) (r : FullRow) :
  id (fill_log l fs r) = if contains fs "id" then r.1.2 else id l.
Proof.
  revert l. induction fs as [|f fs IH]; intros l; [reflexivity|].
  unfold fill_log in *. cbn [fold_left]. rewrite IH, fill_field_id.
  unfold contains. cbn [existsb]. rewrite (String.eqb_sym "id" f).
  destruct (String.eqb f "id"), (existsb _ fs); reflexivity.
Qed.

Lemma fill_log_uid (fs : list string) (l : Log) (r : FullRow) :
  uid (fill_log l fs r) = if contains fs "uid" then r.1.1 else uid l.
Proof.
  revert l. induction fs as [|f fs IH]; intros l; [reflexivity|].
  unfold fill_log in *. cbn [fold_left]. rewrite IH, fill_field_uid.
  unfold contains. cbn [existsb]. rewrite (String.eqb_sym "uid" f).
  destruct (String.eqb f "uid"), (existsb _ fs); reflexivity.
Qed.

(** With the primary key selected, a listed entry carries its row's key. *)
Lemma row_to_log_key (sf fs : list string) (u k : Z) (cs : Row) :
  select_fields sf true = Ok fs ->
  uid (row_to_log fs ((u, k), cs)) = u /\ id (row_to_log fs ((u, k), cs)) = k.
Proof.
  intros H. destruct (select_fields_pk_mandatory sf fs H) as (_ & _ & Hu & Hi).
  apply contains_In in Hu, Hi. unfold row_to_log.
  assert (Hw : forall l fs', uid (with_fields l fs') = uid l /\ id (with_fields l fs') = id l)
    by (intros []; split; reflexivity).
  destruct (Hw (fill_log log_default fs ((u, k), cs)) fs) as [-> ->].
  rewrite fill_log_uid, fill_log_id, Hu, Hi. split; reflexivity.
Qed.

Definition below (t : Z) (kc : Z * Row) : bool := kc.1 <? t.

(** [SELECT fs FROM log WHERE uid=? AND id<? LIMIT ?] as issued by [list]
    without an action filter. *)
Lemma Log_list_none_run (u : Z) (sf fs : list string) (ps : Z) (c : option Z) (w : World) :
  select_fields sf true = Ok fs ->
  Log_list u sf ps c None w =
  ((if ps <=? 0 then Err EQuery
    else Ok (map (row_to_log fs) (map (to_full u)
               (take (Z.to_nat ps) (List.filter (below (default MAX_ID c)) (partition (w_db w) u)))))),
   mkWorld (w_db w) (w_trace w ++ [OpRead])).
Proof.
  intros Hs. pose proof (select_fields_cols_valid _ _ _ Hs) as Hv.
  unfold Log_list. rewrite Hs. unfold st_bind, execute_iter, exec_select, bind_select.
  cbn -[partition]. unfold cols_valid in Hv. rewrite Hv. cbn -[partition].
  destruct (ps <=? 0); [reflexivity|].
  rewrite (filter_map_full _ (below (default MAX_ID c))).
  - rewrite firstn_map. reflexivity.
  - intros k cs. cbn. rewrite andb_true_r. unfold below, Z.ltb. cbn.
    destruct (k ?= _);
      [rewrite bool_decide_eq_false_2 by discriminate | rewrite bool_decide_eq_true_2 by reflexivity
      | rewrite bool_decide_eq_false_2 by discriminate]; reflexivity.
Qed.

Lemma filter_all {A} (p : A -> bool) (l : list A) :
  (forall x, In x l -> p x = true) -> List.filter p l = l.
Proof.
  induction l as [|a l IH]; intros H; [reflexivity|]. simpl.
  rewrite (H a (or_introl eq_refl)), IH; [reflexivity|]. intros x Hx. apply H. right. exact Hx.
Qed.

Lemma filter_none {A} (p : A -> bool) (l : list A) :
  (forall x, In x l -> p x = false) -> List.filter p l = [].
Proof.
  induction l as [|a l IH]; intros H; [reflexivity|]. simpl.
  rewrite (H a (or_introl eq_refl)). apply IH. intros x Hx. apply H. right. exact Hx.
Qed.

Lemma filter_filter_mono {A} (p q : A -> bool) (l : list A) :
  (forall x, p x = true -> q x = true) -> List.filter p (List.filter q l) = List.filter p l.
Proof.
  intros H. induction l as [|a l IH]; [reflexivity|]. simpl.
  destruct (q a) eqn:Eq; simpl; rewrite ?IH; [reflexivity|].
  destruct (p a) eqn:Ep; [|reflexivity]. rewrite (H a Ep) in Eq. discriminate.
Qed.

Lemma filter_map_swap {A B} (p : B -> bool) (f : A -> B) (l : list A) :
  List.filter p (map f l) = map f (List.filter (fun x => p (f x)) l).
Proof.
  induction l as [|a l IH]; [reflexivity|]. simpl. destruct (p (f a)); simpl; rewrite IH; reflexivity.
Qed.

Lemma take_incl {A} (n : nat) (l : list A) (x : A) : In x (take n l) -> In x l.
Proof. intros Hx. rewrite <- (take_drop n l). apply in_or_app. left. exact Hx. Qed.

Lemma last_map {A B} (f : A -> B) (l : list A) : last (map f l) = option_map f (last l).
Proof.
  induction l as [|a l IH]; [reflexivity|].
  destruct l as [|b l]; [reflexivity|]. exact IH.
Qed.

Lemma sorted_filter {A} (R : relation A) (p : A -> bool) (l : list A) :
  StronglySorted R l -> StronglySorted R (List.filter p l).
Proof.
  induction 1 as [|a l Hl IH Ha]; [constructor|]. simpl.
  destruct (p a); [|exact IH]. constructor; [exact IH|].
  rewrite List.Forall_forall in Ha |- *. intros x Hx. apply filter_In in Hx as [Hx _]. auto.
Qed.

Lemma sorted_take {A} (R : relation A) (n : nat) (l : list A) :
  StronglySorted R l -> StronglySorted R (take n l).
Proof. intros H. rewrite <- (take_drop n l) in H. exact (StronglySorted_app_1_l _ _ _ H). Qed.

Lemma sorted_map {A B} (R : relation A) (R' : relation B) (f : A -> B) (l : list A) :
  (forall a b, R a b -> R' (f a) (f b)) -> StronglySorted R l -> StronglySorted R' (map f l).
Proof.
  intros Hf. induction 1 as [|a l Hl IH Ha]; simpl; constructor; [exact IH|].
  apply Forall_map. eapply Forall_impl; [exact Ha|]. intros b. apply Hf.
Qed.

(** On a strictly descending scan, the rows strictly below the last key of
    the first [n] rows are exactly the rows after them. *)
Lemma page_next (S : list (Z * Row)) (n : nat) (x : Z * Row) :
  StronglySorted (fun a b => b.1 < a.1) S -> last (take n S) = Some x ->
  List.filter (below x.1) S = drop n S.
Proof.
  intros Hs Hl. pose proof Hs as Hs'. rewrite <- (take_drop n S) in Hs'.
  rewrite <- (take_drop n S) at 1. rewrite List.filter_app.
  apply last_Some in Hl as [A' HA].
  rewrite (filter_none _ (take n S)), (filter_all _ (drop n S)); [reflexivity| |].
  - intros y Hy. unfold below. apply Z.ltb_lt.
    apply (StronglySorted_app_1_elem_of _ _ _ x y Hs').
    + rewrite HA. apply elem_of_app. right. apply list_elem_of_singleton. reflexivity.
    + apply list_elem_of_In. exact Hy.
  - intros y Hy. unfold below. apply Z.ltb_ge.
    rewrite HA in Hs', Hy. apply StronglySorted_app_1_l in Hs'.
    apply in_app_iff in Hy as [Hy|[<-|[]]]; [|lia].
    pose proof (StronglySorted_app_1_elem_of _ _ _ y x Hs') as Hyx.
    cbv beta in Hyx. enough (x.1 < y.1) by lia. apply Hyx.
    + apply list_elem_of_In. exact Hy.
    + apply list_elem_of_singleton. reflexivity.
Qed.

(** C5: [Log::list] without an action filter.  An absent cursor is the
    same request as the cursor [MAX_ID].  A successful page issues one
    read, holds the first [page_size] identifiers of the owner's rows
    strictly below the cursor, in strictly descending order, each with the
    owner's uid and a stored row; and reading on with the last entry's
    identifier as cursor yields the rows that follow it: the two pages
    together are exactly the page of twice the size, with no overlap and
    no gap. *)
Theorem Log_list_pagination (w : World) (u : Z) (sf : list string) (ps : Z) (c : option Z)
  (p1 : list Log) (w1 : World) (H1 : Log_list u sf ps c None w = (Ok p1, w1)) :
  (forall w', Log_list u sf ps None None w' = Log_list u sf ps (Some MAX_ID) None w') /\
  w1 = mkWorld (w_db w) (w_trace w ++ [OpRead]) /\
  map id p1 = take (Z.to_nat ps)
                (List.filter (fun k => k <? default MAX_ID c) (map fst (partition (w_db w) u))) /\
  (length p1 <= Z.to_nat ps)%nat /\
  StronglySorted (fun a b => id b < id a) p1 /\
  Forall (fun l => uid l = u /\ id l < default MAX_ID c /\ lookup_row (w_db w) u (id l) <> None) p1 /\
  (forall l p2 w2, last p1 = Some l ->
     Log_list u sf ps (Some (id l)) None w1 = (Ok p2, w2) ->
     fst (Log_list u sf (ps + ps) c None w) = Ok (p1 ++ p2) /\
     StronglySorted (fun a b => id b < id a) (p1 ++ p2)).
Proof.
  split; [reflexivity|].
  destruct (select_fields sf true) as [fs|e] eqn:Hs.
  2: { unfold Log_list, st_ret in H1. rewrite Hs in H1. discriminate. }
  rewrite (Log_list_none_run u sf fs ps c w Hs) in H1.
  destruct (ps <=? 0) eqn:Hps; [discriminate|].
  injection H1 as Hp1 Hw1. subst w1 p1. rewrite !map_map.
  set (t := default MAX_ID c). set (P := partition (w_db w) u).
  set (S := List.filter (below t) P). set (n := Z.to_nat ps).
  set (g := fun x => row_to_log fs (to_full u x)).
  assert (Hg : forall x, uid (g x) = u /\ id (g x) = x.1)
    by (intros [k cs]; exact (row_to_log_key sf fs u k cs Hs)).
  assert (HS : StronglySorted (fun a b => b.1 < a.1) S)
    by (apply sorted_filter, partition_sorted).
  assert (Hsorted : forall m, StronglySorted (fun a b => id b < id a) (map g (take m S))).
  { intros m. apply (sorted_map (fun a b => b.1 < a.1)); [|apply sorted_take; exact HS].
    intros a b Hab. rewrite (proj2 (Hg a)), (proj2 (Hg b)). exact Hab. }
  assert (HinS : forall x, In x S -> lookup_row (w_db w) u x.1 = Some x.2 /\ x.1 < t).
  { intros [k cs] Hx. apply filter_In in Hx as [Hx Hb]. unfold below in Hb. apply Z.ltb_lt in Hb.
    split; [|exact Hb]. apply elem_of_partition. apply list_elem_of_In. exact Hx. }
  split; [reflexivity|]. split; [|split; [|split; [|split]]].
  - rewrite <- map_map with (f := g) (g := id), filter_map_swap, firstn_map, map_map.
    apply map_ext. intros x. apply Hg.
  - rewrite length_map. apply firstn_le_length.
  - apply Hsorted.
  - apply List.Forall_forall. intros l Hl. apply in_map_iff in Hl as [x [<- Hx]].
    apply take_incl, HinS in Hx as [Hx Hlt]. destruct (Hg x) as [-> ->].
    split; [reflexivity|]. split; [exact Hlt|]. rewrite Hx. discriminate.
  - intros l p2 w2 Hl H2.
    rewrite (Log_list_none_run u sf fs ps (Some (id l)) _ Hs), Hps in H2. cbn [w_db] in H2.
    injection H2 as Hp2 _. subst p2.
    rewrite last_map in Hl. destruct (last (take n S)) as [x|] eqn:Hx; [|discriminate].
    injection Hl as <-. rewrite (proj2 (Hg x)). cbn [default].
    assert (Hxt : x.1 < t).
    { apply last_Some in Hx as [A' HA]. apply (HinS x). apply (take_incl n S).
      rewrite HA. apply in_or_app. right. left. reflexivity. }
    assert (Hnext : List.filter (below x.1) P = drop n S).
    { rewrite <- (page_next S n x HS Hx). unfold S. symmetry. apply filter_filter_mono.
      unfold below. intros y Hy. apply Z.ltb_lt in Hy. apply Z.ltb_lt. lia. }
    fold P n. rewrite Hnext, !map_map. fold g.
    rewrite (Log_list_none_run u sf fs (ps + ps) c w Hs).
    assert (Hps2 : (ps + ps <=? 0) = false) by (apply Z.leb_gt; apply Z.leb_gt in Hps; lia).
    rewrite Hps2. cbn [fst]. rewrite !map_map. fold g.
    rewrite <- map_app, take_take_drop.
    assert (Hn2 : Z.to_nat (ps + ps) = (n + n)%nat)
      by (unfold n; apply Z.leb_gt in Hps; rewrite Z2Nat.inj_add; lia).
    rewrite Hn2. split; [reflexivity | apply Hsorted].
Qed.

Lemma Log_list_pagination_witness :
  map id (match fst (Log_list 7 [] 2 None None w_list) with Ok p => p | Err _ => [] end)
  = [id_at 5000; id_at 4000].
Proof.
  destruct (Log_list_pagination w_list 7 [] 2 None
              (match fst (Log_list 7 [] 2 None None w_list) with Ok p => p | Err _ => [] end)
              (snd (Log_list 7 [] 2 None None w_list)) ltac:(vm_compute; reflexivity))
    as (_ & _ & Hm & _).
  rewrite Hm. vm_compute. reflexivity.
Defined.

(** C1 (code bug): with an action filter, [Log::list] binds its
    parameters as [(uid, token, action, page_size)] to the markers
    [uid=? AND action=? AND id<?], so the cursor goes to the tinyint
    [action] marker and the action code to the [id] marker; the statement
    is rejected and the call fails whatever the store holds, instead of
    filtering on the action code. *)
Theorem Log_list_action_filter_fails (w : World) (u : Z) (sf : list string) (ps : Z)
  (c : option Z) (a : Z) :
  fst (Log_list u sf ps c (Some a) w) =
  match select_fields sf true with Err e => Err e | Ok _ => Err EQuery end.
Proof.
  unfold Log_list. destruct (select_fields sf true) as [fs|e]; [|reflexivity].
  reflexivity.
Qed.

(** [SELECT fs FROM log WHERE uid=? AND id>? LIMIT ?] with the recent
    lower bound, as issued by [list_recently] for an empty action list. *)
Lemma Log_list_recently_empty_run (now u : Z) (sf fs : list string) (w : World) :
  select_fields sf true = Ok fs ->
  Log_list_recently now u sf [] w =
  (Ok (map (row_to_log fs) (map (to_full u)
         (take 1000 (List.filter (fun kc => recent_lower_bound now <? kc.1) (partition (w_db w) u))))),
   mkWorld (w_db w) (w_trace w ++ [OpRead])).
Proof.
  intros Hs. pose proof (select_fields_cols_valid _ _ _ Hs) as Hv.
  unfold Log_list_recently. rewrite Hs. unfold st_bind, execute_iter, exec_select, bind_select.
  cbn -[partition recent_lower_bound]. unfold cols_valid in Hv. rewrite Hv.
  cbn -[partition recent_lower_bound].
  rewrite (filter_map_full _ (fun kc => recent_lower_bound now <? kc.1)).
  - rewrite firstn_map. reflexivity.
  - intros k cs. cbn -[recent_lower_bound]. rewrite andb_true_r.
    destruct (Z.compare_spec k (recent_lower_bound now)) as [E|E|E].
    + rewrite E, bool_decide_eq_false_2 by discriminate. symmetry. apply Z.ltb_irrefl.
    + rewrite bool_decide_eq_false_2 by discriminate. symmetry. apply Z.ltb_ge. lia.
    + rewrite bool_decide_eq_true_2 by reflexivity. symmetry. apply Z.ltb_lt. lia.
Qed.

(** C4 (as the code does it): [Log::list_recently] with an empty action
    list applies no action restriction; it issues one read and returns the
    owner's entries whose identifier is strictly greater than the lower
    bound, at most 1000 of them, in strictly descending identifier order.
    The bound is an identifier whose first four bytes are the [u32]
    truncation of (now in unix seconds minus 3 days) and whose other eight
    bytes are zero.  The [listRecent] endpoint itself never reaches this
    path: it rejects an empty action set with a validation error and
    leaves the store untouched. *)
Theorem Log_list_recently_empty (now u : Z) (sf fs : list string) (w : World)
  (Hs : select_fields sf true = Ok fs) :
  let lb := recent_lower_bound now in
  (exists rows,
     Log_list_recently now u sf [] w = (Ok rows, mkWorld (w_db w) (w_trace w ++ [OpRead])) /\
     map id rows = take 1000 (List.filter (fun k => lb <? k) (map fst (partition (w_db w) u))) /\
     Forall (fun l => uid l = u /\ lb < id l /\ lookup_row (w_db w) u (id l) <> None) rows /\
     (length rows <= 1000)%nat /\
     StronglySorted (fun a b => id b < id a) rows) /\
  Z.shiftr lb 64 = (now / 1000 - 3600 * 24 * 3) mod 2 ^ 64 mod 2 ^ 32 /\
  lb mod 2 ^ 64 = 0 /\ 0 <= lb < 2 ^ 96 /\
  (forall f w', api_list_recently now (mkListRecentlyInput u [] f) w' = (Err EValidation, w')).
Proof.
  intros lb. split; [|split; [|split; [|split]]].
  - rewrite (Log_list_recently_empty_run now u sf fs w Hs). eexists. split; [reflexivity|].
    rewrite !map_map.
    set (P := partition (w_db w) u). set (g := fun x => row_to_log fs (to_full u x)).
    assert (Hg : forall x, uid (g x) = u /\ id (g x) = x.1)
      by (intros [k cs]; exact (row_to_log_key sf fs u k cs Hs)).
    split; [|split; [|split]].
    + rewrite <- map_map with (f := g) (g := id), filter_map_swap, firstn_map, map_map.
      apply map_ext. intros x. apply Hg.
    + apply List.Forall_forall. intros l Hl. apply in_map_iff in Hl as [[k cs] [<- Hx]].
      apply take_incl, filter_In in Hx as [Hx Hb]. apply Z.ltb_lt in Hb.
      destruct (Hg (k, cs)) as [-> ->]. split; [reflexivity|]. split; [exact Hb|].
      apply list_elem_of_In, elem_of_partition in Hx. cbn [fst]. rewrite Hx. discriminate.
    + rewrite length_map. apply firstn_le_length.
    + apply (sorted_map (fun a b => b.1 < a.1)).
      * intros a b Hab. rewrite (proj2 (Hg a)), (proj2 (Hg b)). exact Hab.
      * apply sorted_take, sorted_filter, partition_sorted.
  - unfold lb, recent_lower_bound, as_u32.
    rewrite Z.shiftr_div_pow2, Z.shiftl_mul_pow2 by lia. apply Z.div_mul. lia.
  - unfold lb, recent_lower_bound. rewrite Z.shiftl_mul_pow2 by lia. apply Z.mod_mul. lia.
  - unfold lb, recent_lower_bound, as_u32. rewrite Z.shiftl_mul_pow2 by lia.
    pose proof (Z.mod_pos_bound ((now / 1000 - 3600 * 24 * 3) mod 2 ^ 64) (2 ^ 32) ltac:(lia)).
    lia.
  - intros f w'. reflexivity.
Qed.

Lemma Log_list_recently_empty_witness :
  map id (match fst (Log_list_recently ((259200 + 2500) * 1000) 7 [] [] w_list) with
          | Ok p => p | Err _ => [] end) = [id_at 5000; id_at 4000; id_at 3000].
Proof.
  destruct (Log_list_recently_empty ((259200 + 2500) * 1000) 7 [] fields w_list
              ltac:(reflexivity)) as [[rows [Hr [Hm _]]] _].
  rewrite Hr. cbn [fst]. rewrite Hm. vm_compute. reflexivity.
Defined.

(** C4 as stated fails for the [listRecent] call: with an empty action
    set the request is rejected by input validation, so no entries are
    returned at all. *)
Lemma api_list_recently_empty_rejected :
  api_list_recently ((259200 + 2500) * 1000) (mkListRecentlyInput 7 [] None) w_list
  = (Err EValidation, w_list) /\
  fst (Log_list_recently ((259200 + 2500) * 1000) 7 [] [] w_list) <> Ok [].
Proof. vm_compute. split; [reflexivity | discriminate]. Qed.

(* ================================================================== *)
(** * Further properties of the code *)

(* ------------------------------------------------------------------ *)
(** ** [Log::get_one] *)

Lemma get_one_run (self : Log) (F fs : list string) (w : World) :
  select_fields F false = Ok fs ->
  get_one self F w =
  (match lookup_row (w_db w) (uid self) (id self) with
   | Some row => (fill_log (with_fields self fs) fs ((uid self, id self), row), Ok tt)
   | None => (with_fields self fs, Err ENotFound)
   end, mkWorld (w_db w) (w_trace w ++ [OpRead])).
Proof.
  intros Hs. pose proof (select_fields_cols_valid _ _ _ Hs) as Hv.
  destruct self as [u i a st g p pl t e fs0]. unfold get_one. rewrite Hs.
  cbn -[exec_select lookup_row fill_log]. rewrite exec_point by exact Hv.
  destruct (lookup_row (w_db w) u i); reflexivity.
Qed.

Lemma get_one_invalid (self : Log) (F : list string) (w : World) (f : string) :
  first_invalid fields F = Some f -> get_one self F w = ((self, Err (EInvalidField f)), w).
Proof.
  intros H. destruct F as [|f0 F']; [discriminate|].
  unfold get_one, select_fields. rewrite H. reflexivity.
Qed.

Lemma with_fields_key (l : Log) (fs : list string) :
  uid (with_fields l fs) = uid l /\ id (with_fields l fs) = id l /\ _fields (with_fields l fs) = fs.
Proof. destruct l. repeat split. Qed.

(** [get_one] only reads: the store is unchanged, at most one read is
    issued, and the key of [self] is kept (a selected [uid] or [id] column
    reads back the key the row was found under). *)
Theorem get_one_read_only (self : Log) (F : list string) (w : World) :
  let '((l, _), w') := get_one self F w in
  w_db w' = w_db w /\ (w_trace w' = w_trace w \/ w_trace w' = w_trace w ++ [OpRead]) /\
  uid l = uid self /\ id l = id self.
Proof.
  destruct (select_fields F false) as [fs|e] eqn:Hs.
  - rewrite (get_one_run self F fs w Hs).
    destruct (with_fields_key self fs) as (Hu & Hi & _).
    destruct (lookup_row (w_db w) (uid self) (id self)) as [row|].
    + split; [reflexivity|]. split; [right; reflexivity|].
      rewrite fill_log_uid, fill_log_id, Hu, Hi. cbn [fst snd].
      split; destruct (contains fs _); reflexivity.
    + split; [reflexivity|]. split; [right; reflexivity|]. split; assumption.
  - unfold get_one. rewrite Hs. cbn. split; [reflexivity|]. split; [left; reflexivity|].
    split; reflexivity.
Qed.

(** [get_one] errors: a requested name outside the column list fails
    with the first such name before any read; with a valid projection, a
    missing row fails with not-found after exactly one read, and [self]
    then only has its [_fields] replaced by the projection. *)
Theorem get_one_errors (self : Log) (F : list string) (w : World) :
  (forall f, first_invalid fields F = Some f ->
     get_one self F w = ((self, Err (EInvalidField f)), w)) /\
  (forall fs, select_fields F false = Ok fs -> lookup_row (w_db w) (uid self) (id self) = None ->
     get_one self F w = ((with_fields self fs, Err ENotFound),
                         mkWorld (w_db w) (w_trace w ++ [OpRead]))).
Proof.
  split.
  - intros f. apply get_one_invalid.
  - intros fs Hs Hn. rewrite (get_one_run self F fs w Hs), Hn. reflexivity.
Qed.

Lemma get_one_errors_witness :
  get_one (with_pk 7 100) ["ip"; "owner"; "x"]%string w0 =
    ((with_pk 7 100, Err (EInvalidField "owner")), w0) /\
  get_one (with_pk 7 5) ["ip"]%string w_created =
    ((with_fields (with_pk 7 5) ["ip"; "action"; "status"]%string, Err ENotFound),
     mkWorld (w_db w_created) (w_trace w_created ++ [OpRead])).
Proof.
  destruct (get_one_errors (with_pk 7 100) ["ip"; "owner"; "x"]%string w0) as [H1 _].
  destruct (get_one_errors (with_pk 7 5) ["ip"]%string w_created) as [_ H2].
  split.
  - apply H1. reflexivity.
  - apply H2; vm_compute; reflexivity.
Defined.

(** The value of a [Log] field as the column value it is stored as. *)
Definition field_value (l : Log) (f : string) : option CqlValue :=
  if String.eqb f "uid" then Some (VId (uid l))
  else if String.eqb f "id" then Some (VId (id l))
  else if String.eqb f "action" then Some (VTinyInt (action l))
  else if String.eqb f "status" then Some (VTinyInt (status l))
  else if String.eqb f "gid" then Some (VId (gid l))
  else if String.eqb f "ip" then Some (VText (ip l))
  else if String.eqb f "payload" then Some (VBlob (payload l))
  else if String.eqb f "tokens" then Some (VInt (tokens l))
  else if String.eqb f "error" then Some (VText (error l))
  else None.

(** What an unset (null) column reads as: the field's default. *)
Definition col_default (f : string) : option CqlValue := field_value log_default f.

(** A stored value that decodes into its field's Rust type: an identifier
    for the [xid::Id] fields, a byte string for [payload], a tinyint, int
    or text for the others. *)
Definition field_accepts (f : string) (v : CqlValue) : bool :=
  match f, v with
  | ("uid" | "id" | "gid"), VId _ => true
  | ("action" | "status"), VTinyInt _ => true
  | "tokens", VInt _ => true
  | ("ip" | "error"), VText _ => true
  | "payload", VBlob _ => true
  | _, _ => false
  end%string.

(** Every stored value decodes into its field's type. *)
Definition row_typed (row : Row) : Prop := map_Forall (fun k v => field_accepts k v = true) row.

Ltac valid_field_cases H :=
  simpl in H; repeat destruct H as [<-|H]; [..|contradiction].

Lemma fill_field_other (l : Log) (f g : string) (v : option CqlValue) :
  In f valid_fields -> g <> f -> field_value (fill_field l g v) f = field_value l f.
Proof.
  intros Hf Hne. valid_field_cases Hf; destruct l; unfold fill_field;
    repeat match goal with |- context [String.eqb g ?s] => destruct (String.eqb_spec g s) as [->|?] end;
    try congruence; reflexivity.
Qed.

Lemma fill_field_self (l : Log) (f : string) (v : option CqlValue) :
  In f valid_fields ->
  field_value (fill_field l f v) f = field_value (fill_field log_default f v) f.
Proof. intros Hf. valid_field_cases Hf; destruct l; reflexivity. Qed.

Lemma fill_field_fields (l : Log) (g : string) (v : option CqlValue) :
  _fields (fill_field l g v) = _fields l.
Proof.
  destruct l; unfold fill_field;
    repeat match goal with |- context [String.eqb g ?s] => destruct (String.eqb g s) end;
    reflexivity.
Qed.

Lemma fill_log_fields (l : Log) (fs : list string) (r : FullRow) :
  _fields (fill_log l fs r) = _fields l.
Proof.
  revert l. induction fs as [|g fs IH]; intros l; [reflexivity|].
  unfold fill_log in *. cbn [fold_left]. rewrite IH. apply fill_field_fields.
Qed.

Lemma fill_log_field (l : Log) (fs : list string) (r : FullRow) (f : string) :
  In f valid_fields ->
  field_value (fill_log l fs r) f =
  if contains fs f then field_value (fill_field log_default f (col_of r f)) f
  else field_value l f.
Proof.
  intros Hf. revert l. induction fs as [|g fs IH]; intros l; [reflexivity|].
  unfold fill_log in *. cbn [fold_left]. rewrite IH.
  unfold contains. cbn [existsb].
  destruct (existsb (String.eqb f) fs); [rewrite orb_true_r; reflexivity|].
  rewrite orb_false_r. destruct (String.eqb_spec f g) as [<-|Hne].
  - apply fill_field_self. exact Hf.
  - apply fill_field_other; [exact Hf | congruence].
Qed.

Lemma decode_typed (f : string) (v : CqlValue) :
  In f valid_fields -> field_accepts f v = true ->
  field_value (fill_field log_default f (Some v)) f = Some v.
Proof.
  intros Hf Hv. valid_field_cases Hf; destruct v; try discriminate Hv; reflexivity.
Qed.

Lemma decode_null (f : string) :
  In f valid_fields -> field_value (fill_field log_default f None) f = col_default f.
Proof. intros Hf. valid_field_cases Hf; reflexivity. Qed.

Lemma col_of_valid (u i : Z) (row : Row) (f : string) :
  In f valid_fields -> col_of ((u, i), row) f = row !! f.
Proof. intros Hf. valid_field_cases Hf; reflexivity. Qed.

Lemma field_value_with_fields (l : Log) (fs : list string) (f : string) :
  field_value (with_fields l fs) f = field_value l f.
Proof. destruct l. reflexivity. Qed.

(** A successful [get_one] on a row whose values have their columns'
    types: every mutable field in the projection takes the stored value
    (its default when the column is unset), every other field keeps the
    value it had in [self], and [_fields] is the projection. *)
Theorem get_one_projection (self : Log) (F fs : list string) (w : World) (row : Row)
  (Hs : select_fields F false = Ok fs)
  (Hrow : lookup_row (w_db w) (uid self) (id self) = Some row)
  (Ht : row_typed row) :
  let '((l, r), _) := get_one self F w in
  r = Ok tt /\ _fields l = fs /\
  forall f, In f valid_fields ->
    field_value l f =
    if contains fs f then match row !! f with Some v => Some v | None => col_default f end
    else field_value self f.
Proof.
  rewrite (get_one_run self F fs w Hs), Hrow.
  split; [reflexivity|]. split.
  - rewrite fill_log_fields. apply with_fields_key.
  - intros f Hf. rewrite fill_log_field by exact Hf. rewrite col_of_valid by exact Hf.
    destruct (contains fs f).
    + destruct (row !! f) as [v|] eqn:Ev.
      * apply decode_typed; [exact Hf|]. exact (map_Forall_lookup_1 _ _ _ _ Ht Ev).
      * apply decode_null. exact Hf.
    + apply field_value_with_fields.
Qed.

Lemma get_one_projection_witness :
  let '((l, _), _) := get_one (with_pk 7 100) ["ip"]%string w_created in
  field_value l "ip" = Some (VText "1.2.3.4") /\ field_value l "tokens" = Some (VInt 0).
Proof.
  pose proof (get_one_projection (with_pk 7 100) ["ip"]%string ["ip"; "action"; "status"]%string
                w_created (default ∅ (lookup_row (w_db w_created) 7 100))
                ltac:(reflexivity) ltac:(vm_compute; reflexivity)
                ltac:(apply (bool_decide_unpack _); vm_compute; reflexivity)) as H.
  destruct (get_one (with_pk 7 100) ["ip"]%string w_created) as [[l r] w'].
  destruct H as (_ & _ & Hf).
  rewrite (Hf "ip"%string), (Hf "tokens"%string) by (simpl; tauto).
  vm_compute. split; reflexivity.
Defined.

(* ------------------------------------------------------------------ *)
(** ** [Log::upsert_fields] *)

(** The guard of [upsert_fields] stops the call: the row exists and its
    [status] reads as non-zero. *)
Definition guard_frozen (db : Store) (u i : Z) : bool :=
  match lookup_row db u i with
  | Some row => negb (as_tiny (row !! "status"%string) =? 0)
  | None => false
  end.

Lemma set_cols_cons (k : string) (v : CqlValue) (kvs : list (string * CqlValue)) (m : Row) :
  set_cols ((k, v) :: kvs) m = set_cols kvs (<[k := v]> m).
Proof. reflexivity. Qed.

Lemma set_cols_notin (kvs : list (string * CqlValue)) (m : Row) (k : string) :
  ~ In k (map fst kvs) -> set_cols kvs m !! k = m !! k.
Proof.
  revert m. induction kvs as [|[k' v'] kvs IH]; intros m Hk; [reflexivity|].
  rewrite set_cols_cons, IH by (intros H; apply Hk; right; exact H).
  apply lookup_insert_ne. intros ->. apply Hk. left. reflexivity.
Qed.

Lemma set_cols_in (kvs : list (string * CqlValue)) (m : Row) (k : string) (v : CqlValue) :
  NoDup (map fst kvs) -> In (k, v) kvs -> set_cols kvs m !! k = Some v.
Proof.
  revert m. induction kvs as [|[k' v'] kvs IH]; intros m Hnd Hin; [destruct Hin|].
  simpl in Hnd. inversion Hnd as [|? ? Hnotin Hnd']; subst.
  rewrite set_cols_cons. destruct Hin as [Heq|Hin].
  - injection Heq as -> ->. rewrite set_cols_notin.
    + apply lookup_insert_eq.
    + intros H. apply Hnotin. apply list_elem_of_In. exact H.
  - apply IH; assumption.
Qed.

Lemma lookup_store_update_ne (db : Store) (u i u' i' : Z) (kvs : list (string * CqlValue)) :
  (u', i') <> (u, i) -> lookup_row (store_update db u i kvs) u' i' = lookup_row db u' i'.
Proof.
  intros Hne. unfold lookup_row, store_update.
  destruct (decide (u' = u)) as [->|Hu].
  - rewrite lookup_insert_eq. simpl. rewrite lookup_insert_ne by congruence. reflexivity.
  - rewrite lookup_insert_ne by congruence. reflexivity.
Qed.

Lemma collect_set_ok (cols : ColumnsMap) (set : list string) (params : list CqlValue) :
  collect_set cols = Ok (set, params) -> set = map fst cols /\ params = map snd cols.
Proof.
  revert set params. induction cols as [|[k v] cols IH]; intros set params H.
  - simpl in H. injection H as <- <-. split; reflexivity.
  - cbn [collect_set] in H. destruct (contains valid_fields k); [|discriminate].
    destruct (collect_set cols) as [[s p]|e]; [|discriminate].
    injection H as <- <-. destruct (IH s p eq_refl) as [-> ->]. split; reflexivity.
Qed.

Lemma collect_set_valid (cols : ColumnsMap) :
  Forall (fun kv => In kv.1 valid_fields) cols -> collect_set cols = Ok (map fst cols, map snd cols).
Proof.
  induction 1 as [|[k v] cols Hk _ IH]; [reflexivity|]. cbn [collect_set].
  rewrite (proj2 (contains_In valid_fields k) Hk), IH. reflexivity.
Qed.

Lemma zip_map_fst_snd (kvs : list (string * CqlValue)) : zip (map fst kvs) (map snd kvs) = kvs.
Proof. induction kvs as [|[k v] kvs IH]; [reflexivity|]. simpl. rewrite IH. reflexivity. Qed.

Lemma exec_update_cols (db : Store) (cols : ColumnsMap) (u i : Z) :
  exec_update db (map fst cols) (map snd cols ++ [VId u; VId i]) =
  match cols with
  | [] => Err EQuery
  | _ => if forallb (fun '(k, v) => col_accepts k v) cols
         then Ok (store_update db u i cols) else Err EQuery
  end.
Proof.
  destruct cols as [|kv cols']; [reflexivity|].
  set (cols := kv :: cols'). unfold exec_update.
  change (map fst cols) with (kv.1 :: map fst cols'). cbv zeta.
  change (kv.1 :: map fst cols') with (map fst cols).
  rewrite (take_app_length' (map snd cols)) by (rewrite !length_map; reflexivity).
  rewrite (drop_app_length' (map snd cols)) by (rewrite !length_map; reflexivity).
  rewrite zip_map_fst_snd. reflexivity.
Qed.

(** [upsert_fields], step by step: the guard read, the frozen check, the
    column-name loop and the [UPDATE]. *)
Lemma upsert_fields_unfold (self : Log) (cols : ColumnsMap) (w : World) :
  upsert_fields self cols w =
  (let self1 := fst (fst (get_one self ["status"%string] w)) in
   let w1 := mkWorld (w_db w) (w_trace w ++ [OpRead]) in
   if guard_frozen (w_db w) (uid self) (id self) then ((self1, Err EFrozen), w1)
   else
     match collect_set cols with
     | Err e => ((self1, Err e), w1)
     | Ok (set, params) =>
         match exec_update (w_db w) set (params ++ [VId (uid self); VId (id self)]) with
         | Ok db' => ((self1, Ok true), mkWorld db' (w_trace w1 ++ [OpWrite]))
         | Err e => ((self1, Err e), mkWorld (w_db w) (w_trace w1 ++ [OpWrite]))
         end
     end).
Proof.
  unfold upsert_fields, st_bind. rewrite get_one_status. unfold guard_frozen.
  destruct self as [u i a st g p pl t e fs0]. cbn -[lookup_row exec_update collect_set].
  destruct (lookup_row (w_db w) u i) as [row|];
    cbn -[lookup_row exec_update collect_set];
    [destruct (as_tiny (row !! "status"%string) =? 0)|]; cbn -[lookup_row exec_update collect_set];
    try reflexivity;
    (destruct (collect_set cols) as [[set params]|err]; [|reflexivity]);
    unfold execute_update; cbn -[exec_update];
    destruct (exec_update _ _ _); reflexivity.
Qed.

Lemma get_one_status_key (self : Log) (w : World) :
  uid (fst (fst (get_one self ["status"%string] w))) = uid self /\
  id (fst (fst (get_one self ["status"%string] w))) = id self.
Proof.
  rewrite get_one_status. destruct self as [u i a st g p pl t e fs]. cbn [uid id].
  destruct (lookup_row (w_db w) u i); split; reflexivity.
Qed.

(** Whatever its outcome, [upsert_fields] keeps the key of [self], issues
    the guard read and at most one write, never touches a row other than
    [(uid, id)], changes the store only when it succeeds, and then only by
    setting the given columns of that row. *)
Theorem upsert_fields_frame (self : Log) (cols : ColumnsMap) (w : World) :
  let '((l, r), w') := upsert_fields self cols w in
  uid l = uid self /\ id l = id self /\
  (forall u i, (u, i) <> (uid self, id self) -> lookup_row (w_db w') u i = lookup_row (w_db w) u i) /\
  (w_trace w' = w_trace w ++ [OpRead] \/ w_trace w' = w_trace w ++ [OpRead; OpWrite]) /\
  (r = Ok true -> w_db w' = store_update (w_db w) (uid self) (id self) cols) /\
  (forall e, r = Err e -> w_db w' = w_db w).
Proof.
  rewrite upsert_fields_unfold. cbv zeta.
  destruct (get_one_status_key self w) as [Hu Hi].
  set (self1 := fst (fst (get_one self ["status"%string] w))) in *.
  assert (Hsame : forall db, db = w_db w ->
            (forall u i, (u, i) <> (uid self, id self) -> lookup_row db u i = lookup_row (w_db w) u i))
    by (intros db -> u i _; reflexivity).
  destruct (guard_frozen (w_db w) (uid self) (id self)).
  { cbn [w_db w_trace]. do 2 (split; [assumption|]).
    split; [apply Hsame; reflexivity|]. split; [left; reflexivity|].
    split; [discriminate | intros; reflexivity]. }
  destruct (collect_set cols) as [[set params]|e] eqn:Hc.
  2: { cbn [w_db w_trace]. do 2 (split; [assumption|]).
       split; [apply Hsame; reflexivity|]. split; [left; reflexivity|].
       split; [discriminate | intros; reflexivity]. }
  apply collect_set_ok in Hc as [-> ->]. rewrite exec_update_cols.
  destruct cols as [|kv cols'] eqn:Ecols.
  { cbn [w_db w_trace]. rewrite <- app_assoc. do 2 (split; [assumption|]).
    split; [apply Hsame; reflexivity|]. split; [right; reflexivity|].
    split; [discriminate | intros; reflexivity]. }
  rewrite <- Ecols.
  destruct (forallb _ cols); cbn [w_db w_trace]; rewrite <- app_assoc;
    (split; [assumption|]); (split; [assumption|]).
  - split; [intros u i Hne; apply lookup_store_update_ne; exact Hne|].
    split; [right; reflexivity|]. split; [intros _; reflexivity | discriminate].
  - split; [apply Hsame; reflexivity|].
    split; [right; reflexivity|]. split; [discriminate | reflexivity].
Qed.

Lemma guard_open (self : Log) (w : World) :
  (forall row, lookup_row (w_db w) (uid self) (id self) = Some row ->
     as_tiny (row !! "status"%string) = 0) ->
  guard_frozen (w_db w) (uid self) (id self) = false.
Proof.
  intros H. unfold guard_frozen. destruct (lookup_row (w_db w) (uid self) (id self)) as [row|] eqn:E;
    [|reflexivity].
  rewrite (H row eq_refl). reflexivity.
Qed.

(** On an entry that is not frozen (no row, or a [status] reading as 0),
    [upsert_fields] with a non-empty map of allowed, well-typed columns
    succeeds after one read and one write, and the row then holds the old
    columns with the given ones set; an empty map still sends an
    [UPDATE] with an empty [SET] list, which the store rejects without
    changing it. *)
Theorem upsert_fields_unfrozen (self : Log) (w : World)
  (Hopen : forall row, lookup_row (w_db w) (uid self) (id self) = Some row ->
             as_tiny (row !! "status"%string) = 0) :
  (forall cols, cols <> [] -> Forall (fun kv => In kv.1 valid_fields /\ col_accepts kv.1 kv.2 = true) cols ->
     exists l, upsert_fields self cols w =
       ((l, Ok true), mkWorld (store_update (w_db w) (uid self) (id self) cols)
                              (w_trace w ++ [OpRead; OpWrite]))) /\
  (exists l, upsert_fields self [] w =
       ((l, Err EQuery), mkWorld (w_db w) (w_trace w ++ [OpRead; OpWrite]))).
Proof.
  pose proof (guard_open self w Hopen) as Hg.
  split.
  - intros cols Hne Hk. rewrite upsert_fields_unfold. cbv zeta. rewrite Hg.
    rewrite collect_set_valid by (eapply Forall_impl; [exact Hk|]; intros kv [H _]; exact H).
    rewrite exec_update_cols. destruct cols as [|kv cols'] eqn:Ec; [contradiction|]. rewrite <- Ec in Hk |- *.
    rewrite (proj2 (forallb_forall _ cols)).
    + eexists. cbn [w_trace]. rewrite <- app_assoc. reflexivity.
    + intros [k v] Hin. apply List.Forall_forall with (x := (k, v)) in Hk; [|exact Hin].
      exact (proj2 Hk).
  - rewrite upsert_fields_unfold. cbv zeta. rewrite Hg. cbn [collect_set].
    cbn [exec_update app]. eexists. cbn [w_trace w_db]. rewrite <- app_assoc. reflexivity.
Qed.

Lemma upsert_fields_unfrozen_witness :
  fst (upsert_fields (with_pk 7 100) [("error"%string, VText "boom")] w_created) =
    (fst (fst (upsert_fields (with_pk 7 100) [("error"%string, VText "boom")] w_created)), Ok true).
Proof.
  destruct (upsert_fields_unfrozen (with_pk 7 100) w_created) as [H _].
  - intros row Hrow. vm_compute in Hrow. injection Hrow as <-. reflexivity.
  - destruct (H [("error"%string, VText "boom")]) as [l E].
    + discriminate.
    + constructor; [split; [simpl; tauto | reflexivity] | constructor].
    + rewrite E. reflexivity.
Defined.

Lemma upsert_fields_success (self : Log) (cols : ColumnsMap) (w : World) (l : Log) (b : bool) (w' : World) :
  upsert_fields self cols w = ((l, Ok b), w') ->
  b = true /\ cols <> [] /\ forallb (fun '(k, v) => col_accepts k v) cols = true /\
  w_db w' = store_update (w_db w) (uid self) (id self) cols /\
  w_trace w' = w_trace w ++ [OpRead; OpWrite].
Proof.
  rewrite upsert_fields_unfold. cbv zeta.
  destruct (guard_frozen (w_db w) (uid self) (id self)); [intros H; inversion H|].
  destruct (collect_set cols) as [[set params]|e] eqn:Hc; [|intros H; inversion H].
  apply collect_set_ok in Hc as [-> ->]. rewrite exec_update_cols.
  destruct cols as [|kv cols'] eqn:Ec; [intros H; inversion H|]. rewrite <- Ec.
  destruct (forallb _ cols) eqn:Hf; intros H; inversion H; subst.
  split; [reflexivity|]. split; [discriminate|]. split; [reflexivity|].
  split; [reflexivity|]. cbn. rewrite <- app_assoc. reflexivity.
Qed.

Lemma upsert_fields_failure (self : Log) (cols : ColumnsMap) (w : World) (l : Log) (e : Error) (w' : World) :
  upsert_fields self cols w = ((l, Err e), w') -> w_db w' = w_db w.
Proof.
  rewrite upsert_fields_unfold. cbv zeta.
  destruct (guard_frozen (w_db w) (uid self) (id self)); [intros H; inversion H; reflexivity|].
  destruct (collect_set cols) as [[set params]|e'] eqn:Hc; [|intros H; inversion H; reflexivity].
  destruct (exec_update _ _ _); intros H; inversion H; reflexivity.
Qed.

(** Writing a non-zero [status] freezes an entry: once an
    [upsert_fields] that sets [status] to a non-zero value has succeeded,
    every later [upsert_fields] on the same [(uid, id)] fails with the
    frozen error after its guard read, whatever columns it sets, and
    leaves the store as it is. *)
Theorem upsert_fields_freezes (self : Log) (cols : ColumnsMap) (w : World) (l : Log) (b : bool)
    (w' : World) (s : Z) (self' : Log) (cols' : ColumnsMap)
  (Hok : upsert_fields self cols w = ((l, Ok b), w'))
  (Hnd : NoDup (map fst cols)) (Hin : In ("status"%string, VTinyInt s) cols) (Hs : s <> 0)
  (Hkey : uid self' = uid self /\ id self' = id self) :
  exists l', upsert_fields self' cols' w' =
             ((l', Err EFrozen), mkWorld (w_db w') (w_trace w' ++ [OpRead])).
Proof.
  apply upsert_fields_success in Hok as (_ & _ & _ & Hdb & _).
  destruct Hkey as [Hu Hi].
  apply (upsert_frozen_core self' cols' w' (set_cols cols (default ∅ (lookup_row (w_db w) (uid self) (id self)))) s).
  - rewrite Hdb, Hu, Hi. apply lookup_store_update.
  - apply set_cols_in; assumption.
  - exact Hs.
Qed.

Lemma upsert_fields_freezes_witness :
  exists l', upsert_fields (with_pk 7 100) [("ip"%string, VText "x")]
               (snd (upsert_fields (with_pk 7 100) [("status"%string, VTinyInt 1)] w_created)) =
             ((l', Err EFrozen),
              mkWorld (w_db (snd (upsert_fields (with_pk 7 100) [("status"%string, VTinyInt 1)] w_created)))
                      (w_trace (snd (upsert_fields (with_pk 7 100) [("status"%string, VTinyInt 1)] w_created))
                       ++ [OpRead])).
Proof.
  apply (upsert_fields_freezes (with_pk 7 100) [("status"%string, VTinyInt 1)] w_created
           (fst (fst (upsert_fields (with_pk 7 100) [("status"%string, VTinyInt 1)] w_created))) true
           (snd (upsert_fields (with_pk 7 100) [("status"%string, VTinyInt 1)] w_created)) 1).
  - vm_compute. reflexivity.
  - constructor; [intros H; inversion H | constructor].
  - left. reflexivity.
  - lia.
  - split; reflexivity.
Defined.

Lemma update_cols_props (input : UpdateLogInput) :
  update_cols input <> [] /\
  Forall (fun kv => In kv.1 valid_fields /\ col_accepts kv.1 kv.2 = true) (update_cols input) /\
  NoDup (map fst (update_cols input)) /\
  In ("status"%string, VTinyInt (ui_status input)) (update_cols input).
Proof.
  destruct input as [u i st pl tk er].
  unfold update_cols; destruct pl, tk, er; simpl.
  all: (split; [discriminate|]).
  all: (split; [repeat (constructor; [split; [cbn; repeat (first [left; reflexivity | right]) | reflexivity]|]); constructor|]).
  all: (split; [apply NoDup_ListNoDup; repeat constructor; cbn; intuition discriminate|]).
  all: cbn; repeat (first [left; reflexivity | right]).
Qed.

(** The [update] handler: a request with negative tokens, or with a
    status other than -1 or 1, is refused before the store is read; on an
    entry that is not frozen (no row, or status 0) it writes [status] and
    the given optional columns to the row [(uid, id)], creating the row if
    it is missing, and answers with the status read by the guard (0) and
    the stored action name (the code-0 action for a missing row), without
    any optional field. *)
Theorem api_update_spec (input : UpdateLogInput) (w : World) :
  ((validate_update input = false \/ (ui_status input <> -1 /\ ui_status input <> 1)) ->
     api_update input w = (Err EValidation, w)) /\
  (validate_update input = true -> (ui_status input = -1 \/ ui_status input = 1) ->
   (forall row, lookup_row (w_db w) (ui_uid input) (ui_id input) = Some row ->
      as_tiny (row !! "status"%string) = 0) ->
   api_update input w =
     (Ok (mkLogOutput (ui_uid input) (ui_id input)
            (from_action (as_tiny (default ∅ (lookup_row (w_db w) (ui_uid input) (ui_id input))
                                     !! "action"%string)))
            0 None None None None None),
      mkWorld (store_update (w_db w) (ui_uid input) (ui_id input) (update_cols input))
              (w_trace w ++ [OpRead; OpWrite]))).
Proof.
  split.
  - intros H. unfold api_update. destruct H as [-> | [H1 H2]]; [reflexivity|].
    destruct (negb (validate_update input)); [reflexivity|].
    rewrite (proj2 (Z.eqb_neq _ _) H1), (proj2 (Z.eqb_neq _ _) H2). reflexivity.
  - intros Hv Hs Hopen. unfold api_update. rewrite Hv.
    replace ((ui_status input =? -1) || (ui_status input =? 1)) with true
      by (destruct Hs as [-> | ->]; reflexivity).
    cbn [negb]. unfold st_bind.
    rewrite upsert_fields_unfold. cbv zeta.
    rewrite (guard_open (with_pk (ui_uid input) (ui_id input)) w Hopen).
    destruct (update_cols_props input) as (Hne & Hk & _ & _).
    rewrite collect_set_valid by (eapply Forall_impl; [exact Hk|]; intros kv [H _]; exact H).
    rewrite exec_update_cols.
    destruct (update_cols input) as [|kv cs] eqn:Ec; [contradiction|]. rewrite <- Ec in Hk |- *.
    rewrite (proj2 (forallb_forall _ (update_cols input))).
    2: { intros [k v] Hin. apply List.Forall_forall with (x := (k, v)) in Hk; [|exact Hin].
         exact (proj2 Hk). }
    rewrite get_one_status. cbn [uid id with_pk w_db w_trace].
    destruct (lookup_row (w_db w) (ui_uid input) (ui_id input)) as [row|] eqn:Hrow.
    + specialize (Hopen row eq_refl). cbn -[store_update from_action].
      rewrite Hopen, <- app_assoc. reflexivity.
    + cbn -[store_update from_action]. rewrite <- app_assoc. reflexivity.
Qed.

Lemma api_update_spec_witness :
  exists w', api_update sample_update w_created =
    (Ok (mkLogOutput 7 100
           (from_action (as_tiny (default ∅ (lookup_row (w_db w_created) 7 100) !! "action"%string)))
           0 None None None None None), w').
Proof.
  destruct (api_update_spec sample_update w_created) as [_ H].
  eexists. apply H.
  - reflexivity.
  - right. reflexivity.
  - intros row Hrow. vm_compute in Hrow. injection Hrow as <-. reflexivity.
Defined.

(** [update] is one-shot: after an [update] of an entry has succeeded,
    every later [update] of the same [(uid, id)] fails, with the frozen
    error after the guard read when the request is valid and with the
    validation error otherwise, and leaves the store as it is. *)
Theorem api_update_once (input input' : UpdateLogInput) (w w' : World) (o : LogOutput)
  (Hok : api_update input w = (Ok o, w'))
  (Hkey : ui_uid input' = ui_uid input /\ ui_id input' = ui_id input) :
  api_update input' w' =
  (if validate_update input' && ((ui_status input' =? -1) || (ui_status input' =? 1))
   then (Err EFrozen, mkWorld (w_db w') (w_trace w' ++ [OpRead]))
   else (Err EValidation, w')).
Proof.
  unfold api_update in Hok.
  destruct (validate_update input); cbn [negb] in Hok; [|discriminate].
  destruct ((ui_status input =? -1) || (ui_status input =? 1)) eqn:Hs; cbn [negb] in Hok;
    [|discriminate].
  unfold st_bind in Hok.
  destruct (upsert_fields (with_pk (ui_uid input) (ui_id input)) (update_cols input) w)
    as [[l [b|e]] w1] eqn:Hu; inversion Hok; subst w1.
  apply upsert_fields_success in Hu as (_ & _ & _ & Hdb & _).
  destruct (update_cols_props input) as (_ & _ & Hnd & Hin).
  unfold api_update.
  destruct (validate_update input'); [|reflexivity].
  destruct ((ui_status input' =? -1) || (ui_status input' =? 1)); [|reflexivity].
  cbn [negb andb]. unfold st_bind.
  destruct (upsert_frozen_core (with_pk (ui_uid input') (ui_id input')) (update_cols input') w'
              (set_cols (update_cols input)
                 (default ∅ (lookup_row (w_db w) (ui_uid input) (ui_id input))))
              (ui_status input)) as [self' E].
  - cbn [uid id with_pk]. destruct Hkey as [-> ->]. rewrite Hdb. apply lookup_store_update.
  - apply set_cols_in; assumption.
  - apply orb_true_iff in Hs as [Hs|Hs]; apply Z.eqb_eq in Hs; lia.
  - rewrite E. reflexivity.
Qed.

Lemma api_update_once_witness :
  api_update (mkUpdateLogInput 7 100 (-1) None None (Some "again"%string))
    (snd (api_update sample_update w_created)) =
  (Err EFrozen, mkWorld (w_db (snd (api_update sample_update w_created)))
                        (w_trace (snd (api_update sample_update w_created)) ++ [OpRead])).
Proof.
  rewrite (api_update_once sample_update (mkUpdateLogInput 7 100 (-1) None None (Some "again"%string))
             w_created (snd (api_update sample_update w_created))
             (mkLogOutput 7 100 "user.login" 0 None None None None None)).
  - reflexivity.
  - vm_compute. reflexivity.
  - split; reflexivity.
Defined.

(* ------------------------------------------------------------------ *)
(** ** [get] *)

(** The [get] handler: a requested name outside the column list fails
    with that name before any read (a trailing comma in [?fields=] asks
    for the empty name); otherwise one read returns the row rendered with
    the projection, or not-found when there is no row. *)
Theorem api_get_spec (u i : Z) (q : option string) (w : World) :
  (forall f, first_invalid fields (get_fields q) = Some f ->
     api_get u i q w = (Err (EInvalidField f), w)) /\
  (forall fs, select_fields (get_fields q) false = Ok fs ->
     api_get u i q w =
     (match lookup_row (w_db w) u i with
      | Some row => Ok (LogOutput_from (fill_log (with_fields (with_pk u i) fs) fs ((u, i), row)))
      | None => Err ENotFound
      end, mkWorld (w_db w) (w_trace w ++ [OpRead]))).
Proof.
  unfold api_get, st_bind. split.
  - intros f Hf. rewrite (get_one_invalid _ _ _ f Hf). reflexivity.
  - intros fs Hs. rewrite (get_one_run _ _ fs w Hs). cbn [uid id with_pk].
    destruct (lookup_row (w_db w) u i); reflexivity.
Qed.

Lemma api_get_spec_witness :
  api_get 7 100 (Some "ip,"%string) w_created = (Err (EInvalidField ""), w_created).
Proof.
  destruct (api_get_spec 7 100 (Some "ip,"%string) w_created) as [H _].
  apply H. vm_compute. reflexivity.
Defined.

(** Creating an entry and reading it back: after a successful [create]
    on a fresh key, [get] without a field filter returns the entry with
    the request's owner, action name, group, address, payload and token
    count, status 0 and no error. *)
Theorem api_create_get (new_id : Z) (input : CreateLogInput) (w : World) (i : Z)
  (Hv : validate_create input = true) (Hi : to_action (ci_action input) = Some i)
  (Hf : lookup_row (w_db w) (ci_uid input) new_id = None) (Ht : ci_tokens input < 2 ^ 31) :
  fst (api_get (ci_uid input) new_id None (snd (api_create new_id input w))) =
  Ok (mkLogOutput (ci_uid input) new_id (ci_action input) 0 (Some (ci_gid input))
        (Some (ci_ip input)) (Some (ci_payload input)) (Some (ci_tokens input)) None).
Proof.
  rewrite (api_create_run new_id input w i Hv Hi Hf). cbn [snd].
  unfold api_get, st_bind. cbn [get_fields]. rewrite get_one_all. cbn [w_db].
  rewrite lookup_store_update, Hf. cbn [default].
  destruct (to_action_Some _ _ Hi) as [Ha _].
  unfold validate_create in Hv. apply andb_true_iff in Hv as [_ Hv]. apply Z.leb_le in Hv.
  destruct input as [u g a st ipv pl tk]. cbn [ci_uid ci_gid ci_action ci_ip ci_payload ci_tokens] in *.
  unfold LogOutput_from. rewrite fold_output.
  cbn. simplify_map_eq. cbn. unfold as_u32. rewrite Z.mod_small by lia. reflexivity.
Qed.

Lemma api_create_get_witness :
  fst (api_get 7 100 None (snd (api_create 100 sample_input w0))) =
  Ok (mkLogOutput 7 100 "user.login" 0 (Some 0) (Some "1.2.3.4"%string) (Some [128]) (Some 1000) None).
Proof.
  apply (api_create_get 100 sample_input w0 8).
  - reflexivity.
  - vm_compute. reflexivity.
  - vm_compute. reflexivity.
  - vm_compute. reflexivity.
Defined.

(* ------------------------------------------------------------------ *)
(** ** [get_fields] *)

(** Joining byte strings with commas, as [String.concat ","] does. *)
Fixpoint joinc (ps : list (list Ascii.ascii)) : list Ascii.ascii :=
  match ps with
  | [] => []
  | [p] => p
  | p :: ps' => p ++ comma :: joinc ps'
  end.

Lemma list_ascii_of_string_app (a b : string) :
  String.list_ascii_of_string (a ++ b) = String.list_ascii_of_string a ++ String.list_ascii_of_string b.
Proof. induction a as [|c a IH]; [reflexivity|]. change (String.String c a +:+ b)%string with (String.String c (a +:+ b))%string. cbn [String.list_ascii_of_string]. rewrite IH. reflexivity. Qed.

Lemma list_ascii_of_concat (ns : list string) :
  String.list_ascii_of_string (String.concat "," ns) = joinc (map String.list_ascii_of_string ns).
Proof.
  induction ns as [|n ns IH]; [reflexivity|].
  destruct ns as [|n' ns']; [reflexivity|].
  change (String.concat "," (n :: n' :: ns')) with (n ++ "," ++ String.concat "," (n' :: ns'))%string.
  rewrite !list_ascii_of_string_app, IH. reflexivity.
Qed.

Lemma split_comma_nonempty (s : list Ascii.ascii) : split_comma s <> [].
Proof.
  destruct s as [|c s]; [discriminate|]. cbn. destruct (Ascii.eqb c comma); [discriminate|].
  destruct (split_comma s); discriminate.
Qed.

Lemma split_comma_app (p r : list Ascii.ascii) :
  ~ In comma p ->
  split_comma (p ++ r) = match split_comma r with x :: xs => (p ++ x) :: xs | [] => [p] end.
Proof.
  induction p as [|c p IH]; intros Hp.
  - cbn [app]. destruct (split_comma r) eqn:E; [exfalso; exact (split_comma_nonempty r E)|].
    reflexivity.
  - cbn [app split_comma]. destruct (Ascii.eqb_spec c comma) as [->|_].
    + exfalso. apply Hp. left. reflexivity.
    + rewrite IH by (intros H; apply Hp; right; exact H).
      destruct (split_comma r); reflexivity.
Qed.

Lemma split_comma_joinc (ps : list (list Ascii.ascii)) :
  ps <> [] -> Forall (fun p => ~ In comma p) ps -> split_comma (joinc ps) = ps.
Proof.
  induction ps as [|p ps IH]; intros Hne Hc; [contradiction|].
  inversion Hc as [|? ? Hp Hps]; subst.
  destruct ps as [|p' ps'].
  - cbn [joinc]. rewrite <- (app_nil_r p) at 1. rewrite split_comma_app by exact Hp.
    cbn. rewrite app_nil_r. reflexivity.
  - change (joinc (p :: p' :: ps')) with (p ++ comma :: joinc (p' :: ps')).
    rewrite split_comma_app by exact Hp. cbn [split_comma].
    rewrite Ascii.eqb_refl, IH by (discriminate || exact Hps).
    rewrite app_nil_r. reflexivity.
Qed.

Lemma is_prefix_comma (e a r : list Ascii.ascii) :
  ~ In comma e -> is_prefix e (a ++ comma :: r) = true -> is_prefix e a = true.
Proof.
  revert a. induction e as [|x e IH]; intros a He H; [reflexivity|].
  destruct a as [|y a].
  - cbn in H. apply andb_true_iff in H as [Hx _]. apply Ascii.eqb_eq in Hx. subst x.
    exfalso. apply He. left. reflexivity.
  - cbn in H |- *. apply andb_true_iff in H as [Hx H]. rewrite Hx. cbn.
    apply IH; [intros Hin; apply He; right; exact Hin | exact H].
Qed.

Lemma match_len_comma (encs : list (list Ascii.ascii)) (a r : list Ascii.ascii) :
  (forall e, In e encs -> ~ In comma e) ->
  match_len encs a = None -> match_len encs (a ++ comma :: r) = None.
Proof.
  induction encs as [|e encs IH]; intros He Ha; [reflexivity|].
  cbn in Ha |- *. destruct (is_prefix e a) eqn:Ea; [discriminate|].
  destruct (is_prefix e (a ++ comma :: r)) eqn:E.
  - apply is_prefix_comma in E; [congruence|]. apply He. left. reflexivity.
  - apply IH; [intros e' Hin; apply He; right; exact Hin | exact Ha].
Qed.

Lemma strip_none (encs : list (list Ascii.ascii)) (s : list Ascii.ascii) :
  match_len encs s = None -> strip encs s = s.
Proof. intros H. unfold strip. destruct (length s); cbn; [reflexivity|]. rewrite H. reflexivity. Qed.

Lemma strip_fuel_le (encs : list (list Ascii.ascii)) (n : nat) (s : list Ascii.ascii) :
  (length (strip_fuel encs n s) <= length s)%nat.
Proof.
  revert s. induction n as [|n IH]; intros s; cbn; [lia|].
  destruct (match_len encs s); [|lia].
  etransitivity; [apply IH|]. rewrite length_drop. lia.
Qed.

Lemma is_prefix_length (e s : list Ascii.ascii) : is_prefix e s = true -> (length e <= length s)%nat.
Proof.
  revert s. induction e as [|x e IH]; intros s H; cbn; [lia|].
  destruct s as [|y s]; [discriminate|]. cbn in H. apply andb_true_iff in H as [_ H].
  apply IH in H. cbn. lia.
Qed.

Lemma match_len_Some (encs : list (list Ascii.ascii)) (s : list Ascii.ascii) (k : nat) :
  match_len encs s = Some k -> exists e, In e encs /\ is_prefix e s = true /\ k = length e.
Proof.
  induction encs as [|e encs IH]; intros H; [discriminate|].
  cbn in H. destruct (is_prefix e s) eqn:E.
  - injection H as <-. exists e. split; [left; reflexivity|]. split; [exact E | reflexivity].
  - destruct (IH H) as (e' & Hin & He' & ->). exists e'. split; [right; exact Hin|]. split; [exact He' | reflexivity].
Qed.

(** Stripping keeps the length only when nothing is stripped. *)
Lemma strip_length_eq (encs : list (list Ascii.ascii)) (s : list Ascii.ascii) :
  (forall e, In e encs -> e <> []) ->
  length (strip encs s) = length s -> match_len encs s = None.
Proof.
  intros Hne Hl. destruct (match_len encs s) as [k|] eqn:E; [|reflexivity]. exfalso.
  destruct (match_len_Some _ _ _ E) as (e & Hin & Hp & ->).
  apply is_prefix_length in Hp. specialize (Hne e Hin).
  destruct e as [|x e]; [contradiction|]. cbn [length] in Hp.
  unfold strip in Hl. destruct (length s) as [|n] eqn:Hs; [lia|].
  cbn [strip_fuel] in Hl. rewrite E in Hl. pose proof (strip_fuel_le encs n (drop (length (x :: e)) s)) as H.
  rewrite length_drop in H. cbn [length] in H. cbn [length] in Hl. lia.
Qed.

Lemma ws_utf8_ok : forall e, In e ws_utf8 -> e <> [] /\ ~ In comma e.
Proof.
  assert (H : forallb (fun e => negb (bool_decide (e = [])) && negb (existsb (Ascii.eqb comma) e)) ws_utf8 = true)
    by (vm_compute; reflexivity).
  intros e Hin. rewrite forallb_forall in H. specialize (H e Hin).
  apply andb_true_iff in H as [H1 H2]. split.
  - intros ->. discriminate.
  - intros Hc. apply negb_true_iff in H2. assert (existsb (Ascii.eqb comma) e = true) as H3.
    { apply existsb_exists. exists comma. split; [exact Hc | apply Ascii.eqb_refl]. }
    congruence.
Qed.

Lemma ws_rev_ok : forall e, In e (map (@List.rev Ascii.ascii) ws_utf8) -> e <> [] /\ ~ In comma e.
Proof.
  intros e Hin. apply in_map_iff in Hin as (e' & <- & Hin).
  destruct (ws_utf8_ok e' Hin) as [Hne Hc]. split.
  - intros H. apply Hne. rewrite <- (rev_involutive e'), H. reflexivity.
  - intros H. apply Hc. apply in_rev. exact H.
Qed.

Lemma trim_end_length (s : list Ascii.ascii) : (length (trim_end s) <= length s)%nat.
Proof. unfold trim_end, strip. rewrite length_rev. etransitivity; [apply strip_fuel_le|]. rewrite length_rev. lia. Qed.

Lemma trim_start_length (s : list Ascii.ascii) : (length (trim_start s) <= length s)%nat.
Proof. apply strip_fuel_le. Qed.

(** A name that [str::trim] leaves alone starts and ends with no
    white space. *)
Lemma trimmed_ends (P : list Ascii.ascii) :
  trim_end (trim_start P) = P ->
  match_len ws_utf8 P = None /\ match_len (map (@List.rev Ascii.ascii) ws_utf8) (List.rev P) = None.
Proof.
  intros H. pose proof (trim_end_length (trim_start P)) as H1. pose proof (trim_start_length P) as H2.
  rewrite H in H1.
  assert (HQ : trim_start P = P).
  { assert (Hs : match_len ws_utf8 P = None)
      by (apply strip_length_eq; [intros e He; apply (ws_utf8_ok e He) | unfold trim_start in *; lia]).
    unfold trim_start. apply strip_none. exact Hs. }
  rewrite HQ in H. split.
  - apply strip_length_eq; [intros e He; apply (ws_utf8_ok e He)|]. rewrite <- HQ at 2. unfold trim_start in *. lia.
  - apply strip_length_eq; [intros e He; apply (ws_rev_ok e He)|].
    unfold trim_end in H. apply (f_equal (@length Ascii.ascii)) in H. rewrite length_rev in H.
    rewrite H, length_rev. reflexivity.
Qed.

Lemma joinc_snoc (ps : list (list Ascii.ascii)) (p : list Ascii.ascii) :
  ps <> [] -> joinc (ps ++ [p]) = joinc ps ++ comma :: p.
Proof.
  induction ps as [|q ps IH]; intros Hne; [contradiction|].
  destruct ps as [|q' ps'].
  - reflexivity.
  - change ((q :: q' :: ps') ++ [p]) with (q :: ((q' :: ps') ++ [p])).
    change (joinc (q :: (q' :: ps') ++ [p])) with (q ++ comma :: joinc ((q' :: ps') ++ [p])).
    rewrite IH by discriminate. cbn [joinc]. rewrite <- app_assoc. reflexivity.
Qed.

Lemma joinc_trim (ps : list (list Ascii.ascii)) :
  ps <> [] -> Forall (fun p => ~ In comma p /\ trim_end (trim_start p) = p) ps ->
  trim_end (trim_start (joinc ps)) = joinc ps.
Proof.
  intros Hne Hps.
  assert (Hst : trim_start (joinc ps) = joinc ps).
  { destruct ps as [|p ps']; [contradiction|]. inversion Hps as [|? ? [_ Hp] _]; subst.
    apply trimmed_ends in Hp as [Hp _]. unfold trim_start. apply strip_none.
    destruct ps' as [|p' ps'']; [exact Hp|].
    change (joinc (p :: p' :: ps'')) with (p ++ comma :: joinc (p' :: ps'')).
    apply match_len_comma; [intros e He; apply (ws_utf8_ok e He) | exact Hp]. }
  rewrite Hst. unfold trim_end. rewrite strip_none; [apply rev_involutive|].
  destruct (exists_last Hne) as (ps0 & p & ->).
  apply Forall_app in Hps as [Hps0 Hp]. inversion Hp as [|? ? [_ Hpt] _]; subst.
  apply trimmed_ends in Hpt as [_ Hpt].
  destruct ps0 as [|q ps0']; [exact Hpt|].
  rewrite joinc_snoc by discriminate. rewrite rev_app_distr. cbn [List.rev]. rewrite <- app_assoc.
  cbn [app]. apply match_len_comma; [intros e He; apply (ws_rev_ok e He) | exact Hpt].
Qed.

(** [get_fields] inverts joining with commas: names that contain no
    comma and that [trim] leaves unchanged come back as they were, in
    order, empty names included; the one exception is the single empty
    name, whose query is blank and gives no names. *)
Theorem get_fields_join (ns : list string)
  (Hns : Forall (fun n => ~ In comma (String.list_ascii_of_string n) /\ str_trim n = n) ns)
  (Hne : ns <> [""%string]) :
  get_fields (Some (String.concat "," ns)) = ns.
Proof.
  destruct ns as [|n0 ns0] eqn:Ens; [reflexivity|]. rewrite <- Ens in Hns, Hne |- *.
  assert (Hnn : ns <> []) by (rewrite Ens; discriminate).
  set (ps := map String.list_ascii_of_string ns).
  assert (Hps : Forall (fun p => ~ In comma p /\ trim_end (trim_start p) = p) ps).
  { apply Forall_map. eapply Forall_impl; [exact Hns|]. intros n [Hc Ht]. split; [exact Hc|].
    apply (f_equal String.list_ascii_of_string) in Ht. unfold str_trim in Ht.
    rewrite String.list_ascii_of_string_of_list_ascii in Ht. exact Ht. }
  assert (Hpsn : ps <> []) by (unfold ps; rewrite Ens; discriminate).
  assert (Htrim : str_trim (String.concat "," ns) = String.concat "," ns).
  { unfold str_trim. rewrite list_ascii_of_concat. fold ps.
    rewrite joinc_trim by assumption.
    unfold ps. rewrite <- list_ascii_of_concat. apply String.string_of_list_ascii_of_string. }
  unfold get_fields. cbv zeta. rewrite Htrim.
  destruct (String.eqb_spec (String.concat "," ns) "") as [Hemp|_].
  - exfalso. rewrite Ens in Hne, Hemp. destruct ns0 as [|n1 ns1].
    + apply Hne. cbn in Hemp. rewrite Hemp. reflexivity.
    + apply (f_equal String.list_ascii_of_string) in Hemp. rewrite list_ascii_of_concat in Hemp.
      cbn [map joinc] in Hemp. destruct (String.list_ascii_of_string n0); discriminate.
  - rewrite list_ascii_of_concat. fold ps.
    rewrite split_comma_joinc by (assumption || (eapply Forall_impl; [exact Hps|]; intros p [Hc _]; exact Hc)).
    unfold ps. rewrite map_map. rewrite <- (map_id ns) at 2. apply map_ext_in.
    intros n Hin. rewrite String.string_of_list_ascii_of_string.
    apply List.Forall_forall with (x := n) in Hns; [|exact Hin]. exact (proj2 Hns).
Qed.

Lemma get_fields_join_witness :
  get_fields (Some "ip,,error") = ["ip"; ""; "error"]%string.
Proof.
  apply (get_fields_join ["ip"; ""; "error"]%string).
  - repeat (constructor; [split; [vm_compute; intros H; repeat (destruct H as [H|H]; [discriminate|]); exact H
                                 | vm_compute; reflexivity]|]).
    constructor.
  - discriminate.
Defined.

(* ------------------------------------------------------------------ *)
(** ** [Log::list_recently] with actions, and the [listRecent] handler *)

Lemma bind_recent (u lb : Z) (acts : list Z) (fs : list string) :
  bind_select (mkSelect fs [CEq "uid"; CGt "id"; CIn "action" (length acts)] LimitParam)
    ([VId u; VId lb] ++ map VTinyInt acts ++ [VInt 1000]) =
  if cols_valid fs
  then Some ([(CEq "uid", [VId u]); (CGt "id", [VId lb]); (CIn "action" (length acts), map VTinyInt acts)], 1000)
  else None.
Proof.
  unfold bind_select. cbn [sel_where sel_limit sel_cols bind_conds cond_arity app length].
  simpl. rewrite !drop_0, take_0.
  rewrite (proj2 (Nat.ltb_ge _ _)) by (rewrite length_app, length_map; lia).
  rewrite (take_app_length' (map VTinyInt acts)) by (rewrite length_map; reflexivity).
  rewrite (drop_app_length' (map VTinyInt acts)) by (rewrite length_map; reflexivity).
  cbn -[col_accepts col_type].
  assert (Ha : forallb (col_accepts "action") (map VTinyInt acts) = true).
  { induction acts as [|a acts IH]; [reflexivity|]. exact IH. }
  rewrite Ha. unfold cols_valid. reflexivity.
Qed.

Lemma existsb_in_tiny (v : CqlValue) (acts : list Z) :
  existsb (fun x => bool_decide (val_cmp v x = Some Eq)) (map VTinyInt acts) =
  existsb (fun a => bool_decide (Some v = Some (VTinyInt a))) acts.
Proof.
  induction acts as [|a acts IH]; [reflexivity|]. cbn [map existsb]. rewrite IH. f_equal.
  apply bool_decide_ext. destruct v; cbn; split; intros H; try discriminate.
  - injection H as H. apply Z.compare_eq in H. subst. reflexivity.
  - injection H as ->. rewrite Z.compare_refl. reflexivity.
Qed.

Lemma Log_list_recently_run (now u : Z) (sf fs : list string) (acts : list Z) (w : World) :
  select_fields sf true = Ok fs -> acts <> [] ->
  Log_list_recently now u sf acts w =
  (Ok (map (row_to_log fs) (map (to_full u)
         (take 1000 (List.filter (fun kc => (recent_lower_bound now <? kc.1) &&
                        existsb (fun a => bool_decide (kc.2 !! "action"%string = Some (VTinyInt a))) acts)
                     (partition (w_db w) u))))),
   mkWorld (w_db w) (w_trace w ++ [OpRead])).
Proof.
  intros Hs Hne. pose proof (select_fields_cols_valid _ _ _ Hs) as Hv.
  unfold Log_list_recently. rewrite Hs.
  destruct acts as [|a0 acts0] eqn:Ea; [contradiction|]. rewrite <- Ea.
  unfold st_bind, execute_iter, exec_select. cbv zeta.
  rewrite bind_recent, Hv. cbn -[partition recent_lower_bound existsb map length].
  rewrite (filter_map_full _ (fun kc => (recent_lower_bound now <? kc.1) &&
             existsb (fun a => bool_decide (kc.2 !! "action"%string = Some (VTinyInt a))) acts)).
  - rewrite firstn_map. reflexivity.
  - intros k cs. cbn -[recent_lower_bound existsb map length]. rewrite andb_true_r. f_equal.
    + destruct (Z.compare_spec k (recent_lower_bound now)) as [E|E|E].
      * rewrite E, bool_decide_eq_false_2 by discriminate. symmetry. apply Z.ltb_irrefl.
      * rewrite bool_decide_eq_false_2 by discriminate. symmetry. apply Z.ltb_ge. lia.
      * rewrite bool_decide_eq_true_2 by reflexivity. symmetry. apply Z.ltb_lt. lia.
    + destruct (cs !! "action"%string) as [v|].
      * apply existsb_in_tiny.
      * symmetry. apply not_true_iff_false. intros H. apply existsb_exists in H as (a & _ & H).
        apply bool_decide_eq_true in H. discriminate.
Qed.

Lemma row_to_log_action (sf fs : list string) (u k : Z) (cs : Row) :
  select_fields sf true = Ok fs ->
  action (row_to_log fs ((u, k), cs)) = as_tiny (cs !! "action"%string).
Proof.
  intros H. destruct (select_fields_pk_mandatory sf fs H) as (Ha & _ & _ & _).
  pose proof (fill_log_field log_default fs ((u, k), cs) "action"%string
                ltac:(right; right; left; reflexivity)) as Hf.
  rewrite (proj2 (contains_In fs "action"%string) Ha) in Hf.
  unfold row_to_log.
  assert (Hw : forall l, action (with_fields l fs) = action l) by (intros []; reflexivity).
  rewrite Hw.
  change (field_value (fill_log log_default fs ((u, k), cs)) "action"%string)
    with (Some (VTinyInt (action (fill_log log_default fs ((u, k), cs))))) in Hf.
  cbn in Hf. injection Hf as ->. reflexivity.
Qed.

(** [Log::list_recently] with a non-empty action list issues one read
    and returns the owner's entries whose identifier is strictly greater
    than the recent lower bound and whose stored action is one of the
    given codes, at most 1000 of them, in strictly descending identifier
    order; each returned entry carries one of the requested action codes. *)
Theorem Log_list_recently_actions (now u : Z) (sf fs : list string) (acts : list Z) (w : World)
  (Hs : select_fields sf true = Ok fs) (Hne : acts <> []) :
  let lb := recent_lower_bound now in
  exists rows,
    Log_list_recently now u sf acts w = (Ok rows, mkWorld (w_db w) (w_trace w ++ [OpRead])) /\
    map id rows =
      take 1000 (map fst (List.filter (fun kc => (lb <? kc.1) &&
                   existsb (fun a => bool_decide (kc.2 !! "action"%string = Some (VTinyInt a))) acts)
                 (partition (w_db w) u))) /\
    Forall (fun l => uid l = u /\ lb < id l /\ In (action l) acts /\
                     lookup_row (w_db w) u (id l) <> None) rows /\
    (length rows <= 1000)%nat /\
    StronglySorted (fun a b => id b < id a) rows.
Proof.
  intros lb. rewrite (Log_list_recently_run now u sf fs acts w Hs Hne). eexists. split; [reflexivity|].
  rewrite !map_map.
  set (P := partition (w_db w) u). set (g := fun x => row_to_log fs (to_full u x)).
  assert (Hg : forall x, uid (g x) = u /\ id (g x) = x.1)
    by (intros [k cs]; exact (row_to_log_key sf fs u k cs Hs)).
  split; [|split; [|split]].
  - rewrite firstn_map. apply map_ext. intros x. apply Hg.
  - apply List.Forall_forall. intros l Hl. apply in_map_iff in Hl as [[k cs] [<- Hx]].
    apply take_incl, filter_In in Hx as [Hx Hb]. apply andb_true_iff in Hb as [Hb Ha].
    apply Z.ltb_lt in Hb.
    destruct (Hg (k, cs)) as [-> ->]. split; [reflexivity|]. split; [exact Hb|]. split.
    + apply existsb_exists in Ha as (a & Hin & Ha). apply bool_decide_eq_true in Ha.
      unfold g, to_full. cbn [fst snd] in Ha |- *. rewrite (row_to_log_action sf fs u k cs Hs), Ha.
      exact Hin.
    + apply list_elem_of_In, elem_of_partition in Hx. cbn [fst]. rewrite Hx. discriminate.
  - rewrite length_map. apply firstn_le_length.
  - apply (sorted_map (fun a b => b.1 < a.1)).
    + intros a b Hab. rewrite (proj2 (Hg a)), (proj2 (Hg b)). exact Hab.
    + apply sorted_take, sorted_filter, partition_sorted.
Qed.

Lemma Log_list_recently_actions_witness :
  map id (match fst (Log_list_recently ((259200 + 2500) * 1000) 7 [] [8] w_list) with
          | Ok p => p | Err _ => [] end) = [id_at 5000; id_at 4000; id_at 3000].
Proof.
  destruct (Log_list_recently_actions ((259200 + 2500) * 1000) 7 [] fields [8] w_list
              ltac:(reflexivity) ltac:(discriminate)) as [rows [Hr [Hm _]]].
  rewrite Hr. cbn [fst]. rewrite Hm. vm_compute. reflexivity.
Defined.

Lemma resolve_actions_unknown (pre post : list string) (a : string) :
  Forall (fun n => to_action n <> None) pre -> to_action a = None ->
  resolve_actions (pre ++ a :: post) = Err (EInvalidAction a).
Proof.
  intros Hpre Ha. induction Hpre as [|n pre Hn _ IH].
  - cbn. rewrite Ha. reflexivity.
  - cbn [app resolve_actions]. destruct (to_action n); [|contradiction]. rewrite IH. reflexivity.
Qed.

Lemma resolve_actions_known (names : list string) (codes : list Z) :
  Forall2 (fun n c => to_action n = Some c) names codes -> resolve_actions names = Ok codes.
Proof.
  induction 1 as [|n c names codes Hn _ IH]; [reflexivity|].
  cbn [resolve_actions]. rewrite Hn, IH. reflexivity.
Qed.

(** The [listRecent] handler: an action list of length outside [1, 10]
    is refused; otherwise the first unknown action name is reported,
    before any read; when all names are known, the handler returns what
    [Log::list_recently] returns for their codes, rendered. *)
Theorem api_list_recently_spec (now : Z) (input : ListRecentlyInput) (w : World) :
  (~ (1 <= length (li_actions input) <= 10)%nat -> api_list_recently now input w = (Err EValidation, w)) /\
  ((1 <= length (li_actions input) <= 10)%nat ->
   forall pre a post, li_actions input = pre ++ a :: post ->
   Forall (fun n => to_action n <> None) pre -> to_action a = None ->
   api_list_recently now input w = (Err (EInvalidAction a), w)) /\
  ((1 <= length (li_actions input) <= 10)%nat ->
   forall codes, Forall2 (fun n c => to_action n = Some c) (li_actions input) codes ->
   api_list_recently now input w =
   (let '(r, w') := Log_list_recently now (li_uid input) (default [] (li_fields input)) codes w in
    (match r with Ok logs => Ok (map LogOutput_from logs) | Err e => Err e end, w'))).
Proof.
  unfold api_list_recently. split; [|split].
  - intros H. rewrite bool_decide_eq_false_2 by exact H. reflexivity.
  - intros H pre a post Heq Hpre Ha. rewrite bool_decide_eq_true_2 by exact H. cbn [negb].
    rewrite Heq, resolve_actions_unknown by assumption. reflexivity.
  - intros H codes Hc. rewrite bool_decide_eq_true_2 by exact H. cbn [negb].
    rewrite (resolve_actions_known _ _ Hc). unfold st_bind.
    destruct (Log_list_recently now (li_uid input) (default [] (li_fields input)) codes w)
      as [[logs|e] w']; reflexivity.
Qed.

Lemma api_list_recently_spec_witness :
  api_list_recently 0 (mkListRecentlyInput 7 ["user.login"; "no.such.action"]%string None) w_list =
  (Err (EInvalidAction "no.such.action"), w_list).
Proof.
  destruct (api_list_recently_spec 0 (mkListRecentlyInput 7 ["user.login"; "no.such.action"]%string None) w_list)
    as (_ & H & _).
  apply (H ltac:(cbn; lia) ["user.login"%string] "no.such.action"%string []).
  - reflexivity.
  - constructor; [vm_compute; discriminate | constructor].
  - vm_compute. reflexivity.
Defined.
